(** * Memory-Explorer-Dashboard: the segment allocator and its step engine

    A shallow embedding of [memory_dashboard.py]: the [SegmentAllocator]
    class, the classifier [classify_input], the tokenizer
    [parse_input_to_bytes] and the step pipeline of [MemoryDashboard]
    ([prepare_allocation], [next_step]), followed by the properties of the
    specification proved (or refuted) on these definitions.

    Conventions of the embedding.
    - Python integers are unbounded, so they are [Z]; nothing wraps.
    - A Python [dict] is a [gmap]; a missing key raises [KeyError].
    - A method that mutates [self] and may raise is a function from the
      state to an outcome and the state it leaves behind: an exception does
      not roll back the assignments executed before it.
    - A Python [str] is a [string]; its characters are the 256 code points
      of Latin-1. The classifier is also given on arbitrary strings, as
      lists of code points ([classify_input_str]), and shown to agree
      with the Latin-1 one. *)

From stdpp Require Import gmap strings list fin_maps.
From Stdlib Require Import ZArith Lia Ascii.

Local Open Scope Z_scope.

(** ** Exceptions and the state-and-exception monad *)

Inductive exn : Type :=
| MemoryError (msg : string)
| KeyError (key : string)
| TypeError
| ValueError.

Inductive outcome (A : Type) : Type :=
| Returned (a : A)
| Raised (e : exn).
Arguments Returned {A} a.
Arguments Raised {A} e.

Definition M (S A : Type) : Type := S → outcome A * S.

Definition ret {S A} (a : A) : M S A := λ s, (Returned a, s).
Definition raise {S A} (e : exn) : M S A := λ s, (Raised e, s).
Definition bind {S A B} (m : M S A) (k : A → M S B) : M S B :=
  λ s, match m s with
       | (Returned a, s') => k a s'
       | (Raised e, s') => (Raised e, s')
       end.
Definition get {S} : M S S := λ s, (Returned s, s).
Definition modify {S} (f : S → S) : M S unit := λ s, (Returned tt, f s).

#[global] Instance M_ret {S} : MRet (M S) := λ A, @ret S A.
#[global] Instance M_bind {S} : MBind (M S) := λ A B k m, @bind S A B m k.

(** ** SegmentAllocator *)

Record seg_info : Type := SegInfo {
  base : Z;
  next_offset : Z;
  limit : Z
}.

Record SegmentAllocator : Type := Allocator {
  segments : gmap string seg_info;
  stack_pointer : Z
}.

(** [SegmentAllocator.__init__] *)
Definition new_allocator : SegmentAllocator :=
  {| segments :=
       <["CS" := SegInfo 0x1000 0x0000 0x0FFF]>
       (<["DS" := SegInfo 0x2000 0x0000 0x0FFF]>
       (<["SS" := SegInfo 0x3000 0x0000 0x0FFF]>
       (<["ES" := SegInfo 0x4000 0x0000 0x0FFF]> ∅)));
     stack_pointer := 0xFFFE |}.

Definition seg_tags : list string := ["CS"; "DS"; "SS"; "ES"].

(** The three conditions the allocator reports, all as [MemoryError]. *)
Definition OutOfMemory (seg_name : string) : exn :=
  MemoryError (seg_name +:+ " out of memory").
Definition StackOverflow : exn := MemoryError "Stack overflow".
Definition StackUnderflow : exn := MemoryError "Stack underflow".

(** [self.segments[seg_name]] *)
Definition segment (seg_name : string) : M SegmentAllocator seg_info :=
  λ a, match segments a !! seg_name with
       | Some si => (Returned si, a)
       | None => (Raised (KeyError seg_name), a)
       end.

(** [seg_info["next_offset"] += 1] on the dict stored under [seg_name] *)
Definition bump_next_offset (seg_name : string) (si : seg_info)
  : M SegmentAllocator unit :=
  modify (λ a,
    {| segments :=
         <[seg_name := SegInfo (base si) (next_offset si + 1) (limit si)]>
           (segments a);
       stack_pointer := stack_pointer a |}).

Definition set_stack_pointer (sp : Z) : M SegmentAllocator unit :=
  modify (λ a, {| segments := segments a; stack_pointer := sp |}).

Definition allocate_byte (seg_name : string) : M SegmentAllocator (Z * Z) :=
  si ← segment seg_name;
  if next_offset si <? limit si then
    let off := next_offset si in
    bump_next_offset seg_name si ;;
    ret (base si, off)
  else raise (OutOfMemory seg_name).

Definition push_value (value : Z) : M SegmentAllocator Z :=
  a ← get;
  ss ← segment "SS";
  if stack_pointer a - 1 >=? Z.shiftl (base ss) 4 then
    set_stack_pointer (stack_pointer a - 2) ;;
    a' ← get;
    ret (stack_pointer a')
  else raise StackOverflow.

Definition pop_value : M SegmentAllocator Z :=
  a ← get;
  ss ← segment "SS";
  if stack_pointer a <? Z.shiftl (base ss) 4 + limit ss then
    let old_sp := stack_pointer a in
    set_stack_pointer (stack_pointer a + 2) ;;
    ret old_sp
  else raise StackUnderflow.

Definition peek_next (seg_name : string) : M SegmentAllocator (Z * Z) :=
  si ← segment seg_name;
  if next_offset si <? limit si then
    ret (base si, next_offset si)
  else raise (OutOfMemory seg_name).

(** Running a list of calls one after the other on the same object,
    keeping every outcome; a raised exception does not stop the caller
    from making the next call. *)
Fixpoint run_calls {S A} (calls : list (M S A)) (s : S)
  : list (outcome A) * S :=
  match calls with
  | [] => ([], s)
  | c :: rest =>
      let '(o, s1) := c s in
      let '(os, s2) := run_calls rest s1 in
      (o :: os, s2)
  end.

(** [after_calls n c s]: the state after making the call [c] on [s]
    [n] times in a row. *)
Definition after_calls {S A} (n : nat) (c : M S A) (s : S) : S :=
  snd (run_calls (replicate n c) s).

(** The allocator states a client can reach through the public methods. *)
Inductive reachable : SegmentAllocator → Prop :=
| reachable_new : reachable new_allocator
| reachable_allocate seg_name a :
    reachable a → reachable (snd (allocate_byte seg_name a))
| reachable_peek seg_name a :
    reachable a → reachable (snd (peek_next seg_name a))
| reachable_push value a :
    reachable a → reachable (snd (push_value value a))
| reachable_pop a :
    reachable a → reachable (snd (pop_value a)).

(** The window [[SS.base<<4, SS.base<<4 + SS.limit]] of section 3. *)
Definition sp_in_stack_window (a : SegmentAllocator) : bool :=
  match segments a !! "SS" with
  | Some ss =>
      (Z.shiftl (base ss) 4 <=? stack_pointer a)
      && (stack_pointer a <=? Z.shiftl (base ss) 4 + limit ss)
  | None => false
  end.

(** ** Python string primitives on Latin-1 strings *)

Definition code (c : ascii) : Z := Z.of_N (N_of_ascii c).
Definition chr (n : Z) : ascii := ascii_of_N (Z.to_N n).

Definition in_range (lo hi : Z) (n : Z) : bool := (lo <=? n) && (n <=? hi).

(** [str.upper], one character at a time. Within Latin-1 the letters
    [a-z] and [0xE0-0xFE] (but not the division sign [0xF7]) move down
    by 32 and the sharp s [0xDF] becomes the two letters [SS]. The upper
    case forms of the micro sign [0xB5] and of [0xFF] are the only ones
    outside Latin-1; they stand for themselves here, which keeps them
    distinct from every other character, as they are in Python. *)
Definition upper_char (c : ascii) : string :=
  let n := code c in
  if in_range 97 122 n then String (chr (n - 32)) ""
  else if n =? 223 then "SS"
  else if in_range 224 254 n && negb (n =? 247) then String (chr (n - 32)) ""
  else String c "".

Fixpoint upper (s : string) : string :=
  match s with
  | EmptyString => ""
  | String c rest => upper_char c +:+ upper rest
  end.

(** [str.startswith] *)
Definition startswith (s pre : string) : bool := String.prefix pre s.

(** [needle in hay] for strings *)
Fixpoint contains (needle hay : string) : bool :=
  String.prefix needle hay ||
  match hay with
  | EmptyString => false
  | String _ rest => contains needle rest
  end.

(** [token in keywords] for a list of strings *)
Definition in_list (token : string) (keywords : list string) : bool :=
  existsb (String.eqb token) keywords.

Fixpoint all_chars (p : ascii → bool) (s : string) : bool :=
  match s with
  | EmptyString => true
  | String c rest => p c && all_chars p rest
  end.

Definition nonempty (s : string) : bool :=
  match s with EmptyString => false | String _ _ => true end.

(** Alphabetic Latin-1 code points. *)
Definition is_alpha_char (c : ascii) : bool :=
  let n := code c in
  in_range 65 90 n || in_range 97 122 n
  || (n =? 170) || (n =? 181) || (n =? 186)
  || in_range 192 214 n || in_range 216 246 n || in_range 248 255 n.

(** Latin-1 code points with the digit property: [0-9] and the
    superscripts two, three and one. *)
Definition is_digit_char (c : ascii) : bool :=
  let n := code c in
  in_range 48 57 n || (n =? 178) || (n =? 179) || (n =? 185).

Definition isalpha (s : string) : bool := nonempty s && all_chars is_alpha_char s.
Definition isdigit (s : string) : bool := nonempty s && all_chars is_digit_char s.

(** ** classify_input *)

Definition stack_keywords : list string := ["PUSH"; "POP"].
Definition code_keywords : list string :=
  ["MOV"; "CALL"; "JMP"; "ADD"; "SUB"; "MUL"; "DIV"; "RET"; "INC"; "DEC"].
Definition data_keywords : list string :=
  ["AX"; "BX"; "CX"; "DX"; "SI"; "DI"; "BP"; "SP"; "DATA"; "WORD"; "BYTE"].

(** The first test of [classify_input], on the upper-cased token. *)
Definition es_rule (token : string) : bool :=
  contains "ES:" token || contains "DEST" token || startswith token "MOVS".

Definition classify_input (token : string) : string :=
  let token := upper token in
  if es_rule token then "ES"
  else if in_list token stack_keywords then "SS"
  else if in_list token code_keywords then "CS"
  else if in_list token data_keywords || isalpha token || isdigit token then "DS"
  else "DS".

(** ** parse_input_to_bytes *)

(** [str.isspace] on one Latin-1 character, which is also what [\s]
    matches in a [str] pattern. *)
Definition is_space_char (c : ascii) : bool :=
  let n := code c in
  in_range 9 13 n || in_range 28 32 n || (n =? 133) || (n =? 160).

(** The character class [[,\s;]] *)
Definition is_separator (c : ascii) : bool :=
  (code c =? 44) || is_space_char c || (code c =? 59).

Fixpoint lstrip (s : string) : string :=
  match s with
  | EmptyString => ""
  | String c rest => if is_space_char c then lstrip rest else s
  end.

(** [rstrip s] drops the trailing white space: a character is kept when
    it is no space or when something is kept after it. *)
Fixpoint rstrip (s : string) : string :=
  match s with
  | EmptyString => ""
  | String c rest =>
      match rstrip rest with
      | EmptyString => if is_space_char c then "" else String c ""
      | kept => String c kept
      end
  end.

Definition strip (s : string) : string := rstrip (lstrip s).

(** [re.split(r"[,\s;]+", s)]: the fields between the maximal runs of
    separators, with an empty first (last) field when [s] starts (ends)
    with a separator. [field] is the field read so far and [in_run]
    tells whether the previous character was a separator. *)
Fixpoint re_split_from (field : string) (in_run : bool) (s : string)
  : list string :=
  match s with
  | EmptyString => [field]
  | String c rest =>
      if is_separator c then
        if in_run then re_split_from "" true rest
        else field :: re_split_from "" true rest
      else re_split_from (field +:+ String c "") false rest
  end.

Definition re_split (s : string) : list string := re_split_from "" false s.

Definition double_quote : ascii := chr 34.
Definition single_quote : ascii := chr 39.

Definition first_char (s : string) : option ascii :=
  match s with EmptyString => None | String c _ => Some c end.

Fixpoint last_char (s : string) : option ascii :=
  match s with
  | EmptyString => None
  | String c EmptyString => Some c
  | String _ rest => last_char rest
  end.

(** [t[:-1]] *)
Fixpoint drop_last (s : string) : string :=
  match s with
  | EmptyString => ""
  | String _ EmptyString => ""
  | String c rest => String c (drop_last rest)
  end.

(** [t[1:-1]] *)
Definition strip_ends (s : string) : string :=
  match s with
  | EmptyString => ""
  | String _ rest => drop_last rest
  end.

Definition starts_and_ends_with (q : ascii) (t : string) : bool :=
  bool_decide (first_char t = Some q) && bool_decide (last_char t = Some q).

Definition is_quoted (t : string) : bool :=
  starts_and_ends_with double_quote t || starts_and_ends_with single_quote t.

(** [s.encode('latin1')]. The strings of this model hold Latin-1
    characters only, all of them encodable, so here neither the strict
    codec of the quoted branch nor the replacing one of the last
    branch has anything to do; on a character above U+00FF, which no
    string of the model contains, the strict codec raises
    [UnicodeEncodeError] and the replacing one gives a question
    mark. *)
Fixpoint encode_latin1 (s : string) : list Z :=
  match s with
  | EmptyString => []
  | String c rest => code c :: encode_latin1 rest
  end.

Definition is_hex_char (c : ascii) : bool :=
  let n := code c in
  in_range 48 57 n || in_range 65 70 n || in_range 97 102 n.

Definition hex_digit_value (c : ascii) : Z :=
  let n := code c in
  if in_range 48 57 n then n - 48
  else if in_range 65 70 n then n - 55
  else n - 87.

(** [[0-9A-Fa-f]+] against the whole of [s] *)
Definition all_hex (s : string) : bool := nonempty s && all_chars is_hex_char s.

(** [re.fullmatch(r"0x[0-9A-Fa-f]+", t)] *)
Definition fullmatch_0x (t : string) : bool :=
  match t with
  | String c0 (String c1 rest) =>
      (code c0 =? 48) && (code c1 =? 120) && all_hex rest
  | _ => false
  end.

(** [re.fullmatch(r"[0-9A-Fa-f]+H", t, re.IGNORECASE)] *)
Definition fullmatch_hex_H (t : string) : bool :=
  match last_char t with
  | Some c => ((code c =? 72) || (code c =? 104)) && all_hex (drop_last t)
  | None => false
  end.

(** [re.fullmatch(r"[0-9A-Fa-f]{1,2}", t)] *)
Definition fullmatch_hex_1_2 (t : string) : bool :=
  match t with
  | String _ EmptyString | String _ (String _ EmptyString) => all_hex t
  | _ => false
  end.

Fixpoint digits_value (radix : Z) (value_of : ascii → Z) (acc : Z) (s : string) : Z :=
  match s with
  | EmptyString => acc
  | String c rest => digits_value radix value_of (radix * acc + value_of c) rest
  end.

(** [int(s, 16)] on the literals the patterns above let through: hex
    digits, after an optional [0x]; anything else is a [ValueError]. *)
Definition int_16 (s : string) : outcome Z :=
  let digits := if fullmatch_0x s then
                  match s with String _ (String _ rest) => rest | _ => s end
                else s in
  if all_hex digits then Returned (digits_value 16 hex_digit_value 0 digits)
  else Raised ValueError.

(** [int(s)]: the decimal digits [0-9] convert; the superscript digits,
    which [isdigit] accepts, do not. *)
Definition int_10 (s : string) : outcome Z :=
  if nonempty s && all_chars (λ c, in_range 48 57 (code c)) s
  then Returned (digits_value 10 (λ c, code c - 48) 0 s)
  else Raised ValueError.

(** The loop [while v > 0: temp.append(v & 0xFF); v >>= 8]. The loop
    runs once per byte of [v]; [S (log2 v)] iterations are always
    enough (lemma [low_bytes_unfold]). *)
Fixpoint low_bytes_loop (fuel : nat) (v : Z) : list Z :=
  match fuel with
  | O => []
  | S fuel' =>
      if 0 <? v then Z.land v 0xFF :: low_bytes_loop fuel' (Z.shiftr v 8)
      else []
  end.

Definition low_bytes (v : Z) : list Z :=
  low_bytes_loop (S (Z.to_nat (Z.log2 v))) v.

(** The tail of the loop body, once the token has a value [v]. *)
Definition number_bytes (v : Z) : list Z :=
  if v =? 0 then [0] else low_bytes v.

(** The bytes one token contributes. *)
Definition token_bytes (t : string) : outcome (list Z) :=
  if is_quoted t then Returned (encode_latin1 (strip_ends t))
  else if fullmatch_0x t then
    match int_16 t with
    | Returned v => Returned (number_bytes v) | Raised e => Raised e end
  else if fullmatch_hex_H t then
    match int_16 (drop_last t) with
    | Returned v => Returned (number_bytes v) | Raised e => Raised e end
  else if fullmatch_hex_1_2 t then
    match int_16 t with
    | Returned v => Returned (number_bytes v) | Raised e => Raised e end
  else if isdigit t then
    match int_10 t with
    | Returned v => Returned (number_bytes v) | Raised e => Raised e end
  else Returned (encode_latin1 t).

(** The [for t in tokens] loop, threading [bytes_out] and
    [cleaned_tokens]. *)
Fixpoint parse_tokens (tokens : list string) (bytes_out : list Z)
    (cleaned_tokens : list string) : outcome (list Z * list string) :=
  match tokens with
  | [] => Returned (bytes_out, cleaned_tokens)
  | t :: rest =>
      if negb (nonempty t) then parse_tokens rest bytes_out cleaned_tokens
      else
        let cleaned_tokens := cleaned_tokens ++ [t] in
        match token_bytes t with
        | Returned bs => parse_tokens rest (bytes_out ++ bs) cleaned_tokens
        | Raised e => Raised e
        end
  end.

Definition parse_input_to_bytes (text : string) : outcome (list Z * list string) :=
  let tokens := re_split (strip text) in
  parse_tokens tokens [] [].


(** ** MemoryDashboard: the state behind the widgets *)

(** The closures built by [make_steps] share the variables
    [byte_value], [index], [token] and [seg_name] of one call. *)
Record step_env : Type := StepEnv {
  byte_value : Z;
  index : nat;
  token : string;
  seg_name : string
}.

(** Which of the four inner functions a queued closure is. *)
Inductive step_fun : Type :=
| StepSelectSegment
| StepShowOffset
| StepCalcPhysical
| StepWrite.

Definition Step : Type := step_fun * step_env.

(** One line of the log widget. Each constructor stands for one of the
    format strings passed to [self.log], with the values it
    interpolates; the rendering of numbers as hexadecimal text is left
    to the widget. *)
Inductive log_line : Type :=
| LogClassified (index : nat) (token seg_name : string)
| LogSegmentBase (seg_name : string) (base : Z)
| LogNextFreeOffset (index : nat) (seg_name : string) (off : Z)
| LogPhysicalAddress (index : nat) (base off : Z)
| LogRegisterAX
| LogPopped (pop_addr : Z)
| LogStackPointer (sp : Z)
| LogError (e : exn)
| LogWritten (index : nat) (byte : Z) (seg_name : string) (base off : Z)
| LogPrepared (n_bytes n_steps : nat)
| LogNoMoreSteps
| LogAllocationComplete.

(** One row of the tree view: segment base and offset, physical
    address, byte value and segment name. *)
Record tree_row : Type := TreeRow {
  row_base : Z;
  row_off : Z;
  row_phys : Z;
  row_value : Z;
  row_seg : string
}.

Record MemoryDashboard : Type := Dashboard {
  allocator : SegmentAllocator;
  memory : gmap Z (option Z);
  step_queue : list Step;
  current_byte_value : option Z;
  current_alloc_info : option (string * Z * Z);
  after_id : option unit;
  registers : gmap string Z;
  log_text : list log_line;
  tree : list tree_row
}.

(** The fields as [MemoryDashboard.__init__] sets them; a cell of
    [memory] holds whatever [current_byte_value] held when it was
    written, and [None] is Python's [None]. *)
Definition new_dashboard : MemoryDashboard :=
  {| allocator := new_allocator;
     memory := ∅;
     step_queue := [];
     current_byte_value := None;
     current_alloc_info := None;
     after_id := None;
     registers :=
       <["AX" := 0]> (<["BX" := 0]> (<["CX" := 0]> (<["DX" := 0]>
       (<["SP" := 0xFFFE]> ∅))));
     log_text := [];
     tree := [] |}.

Section field_updates.
Implicit Type d : MemoryDashboard.

Definition with_allocator (a : SegmentAllocator) d : MemoryDashboard :=
  Dashboard a (memory d) (step_queue d) (current_byte_value d)
    (current_alloc_info d) (after_id d) (registers d) (log_text d) (tree d).
Definition with_memory (m : gmap Z (option Z)) d : MemoryDashboard :=
  Dashboard (allocator d) m (step_queue d) (current_byte_value d)
    (current_alloc_info d) (after_id d) (registers d) (log_text d) (tree d).
Definition with_step_queue (q : list Step) d : MemoryDashboard :=
  Dashboard (allocator d) (memory d) q (current_byte_value d)
    (current_alloc_info d) (after_id d) (registers d) (log_text d) (tree d).
Definition with_current_byte_value (b : option Z) d : MemoryDashboard :=
  Dashboard (allocator d) (memory d) (step_queue d) b
    (current_alloc_info d) (after_id d) (registers d) (log_text d) (tree d).
Definition with_current_alloc_info (i : option (string * Z * Z)) d
  : MemoryDashboard :=
  Dashboard (allocator d) (memory d) (step_queue d) (current_byte_value d)
    i (after_id d) (registers d) (log_text d) (tree d).
Definition with_after_id (i : option unit) d : MemoryDashboard :=
  Dashboard (allocator d) (memory d) (step_queue d) (current_byte_value d)
    (current_alloc_info d) i (registers d) (log_text d) (tree d).
Definition with_registers (r : gmap string Z) d : MemoryDashboard :=
  Dashboard (allocator d) (memory d) (step_queue d) (current_byte_value d)
    (current_alloc_info d) (after_id d) r (log_text d) (tree d).
Definition with_log_text (l : list log_line) d : MemoryDashboard :=
  Dashboard (allocator d) (memory d) (step_queue d) (current_byte_value d)
    (current_alloc_info d) (after_id d) (registers d) l (tree d).
Definition with_tree (t : list tree_row) d : MemoryDashboard :=
  Dashboard (allocator d) (memory d) (step_queue d) (current_byte_value d)
    (current_alloc_info d) (after_id d) (registers d) (log_text d) t.
End field_updates.

(** A call of a method of [self.allocator]. *)
Definition on_allocator {A} (m : M SegmentAllocator A) : M MemoryDashboard A :=
  λ d, let '(o, a) := m (allocator d) in (o, with_allocator a d).

(** [self.log(text)]: append a line. *)
Definition log (line : log_line) : M MemoryDashboard unit :=
  modify (λ d, with_log_text (log_text d ++ [line]) d).

(** [update_display] refreshes the segment and register labels from
    [peek_next] and [self.registers]; it catches what [peek_next]
    raises and changes none of the fields above. *)
Definition update_display : M MemoryDashboard unit := ret tt.

(** [try: body except MemoryError as e: handler(e)] *)
Definition try_except_MemoryError {S A} (body : M S A) (handler : exn → M S A)
  : M S A :=
  λ s, match body s with
       | (Raised (MemoryError msg), s') => handler (MemoryError msg) s'
       | r => r
       end.

(** [seg_name, base, off = self.current_alloc_info]; unpacking [None]
    is a [TypeError]. *)
Definition unpack_current_alloc_info : M MemoryDashboard (string * Z * Z) :=
  d ← get;
  match current_alloc_info d with
  | Some info => ret info
  | None => raise TypeError
  end.

Definition step_select_segment (env : step_env) : M MemoryDashboard unit :=
  '(base, off) ← on_allocator (peek_next (seg_name env));
  modify (with_current_byte_value (Some (byte_value env)));;
  modify (with_current_alloc_info (Some (seg_name env, base, off)));;
  log (LogClassified (index env) (token env) (seg_name env));;
  log (LogSegmentBase (seg_name env) base);;
  update_display.

Definition step_show_offset (env : step_env) : M MemoryDashboard unit :=
  '(seg_name, base, off) ← unpack_current_alloc_info;
  log (LogNextFreeOffset (index env) seg_name off).

Definition step_calc_physical (env : step_env) : M MemoryDashboard unit :=
  '(seg_name, base, off) ← unpack_current_alloc_info;
  log (LogPhysicalAddress (index env) base off).

(** The [PUSH]/[POP] part of [step_write]. *)
Definition special_operations (token seg_name : string) : M MemoryDashboard unit :=
  if String.eqb (upper token) "PUSH" && String.eqb seg_name "SS" then
    modify (λ d, with_registers (<["AX" := 0x1234]> (registers d)) d);;
    log LogRegisterAX
  else if String.eqb (upper token) "POP" && String.eqb seg_name "SS" then
    try_except_MemoryError
      (pop_addr ← on_allocator pop_value;
       modify (λ d, with_registers (<["BX" := 0x1234]> (registers d)) d);;
       log (LogPopped pop_addr);;
       d ← get;
       log (LogStackPointer (stack_pointer (allocator d))))
      (λ e, log (LogError e))
  else ret tt.

Definition step_write (env : step_env) : M MemoryDashboard unit :=
  '(seg_name, base, off) ← unpack_current_alloc_info;
  let phys := Z.shiftl base 4 + off in
  modify (λ d, with_memory (<[phys := current_byte_value d]> (memory d)) d);;
  on_allocator (allocate_byte seg_name);;
  special_operations (token env) seg_name;;
  d ← get;
  match current_byte_value d with
  | None => raise TypeError
  | Some value =>
      modify (λ d, with_tree
                     (TreeRow base off (Z.shiftl base 4 + off) value seg_name
                        :: tree d) d);;
      log (LogWritten (index env) value seg_name base off);;
      update_display
  end.

(** [func()] for a queued closure. *)
Definition call (func : Step) : M MemoryDashboard unit :=
  match func with
  | (StepSelectSegment, env) => step_select_segment env
  | (StepShowOffset, env) => step_show_offset env
  | (StepCalcPhysical, env) => step_calc_physical env
  | (StepWrite, env) => step_write env
  end.

Definition make_steps (byte_value : Z) (index : nat) (token seg_name : string)
  : list Step :=
  let env := StepEnv byte_value index token seg_name in
  [] ++ [(StepSelectSegment, env); (StepShowOffset, env);
         (StepCalcPhysical, env); (StepWrite, env)].

(** [enumerate(l)], counting from [start]. *)
Fixpoint enumerate_from {A} (start : nat) (l : list A) : list (nat * A) :=
  match l with
  | [] => []
  | x :: rest => (start, x) :: enumerate_from (S start) rest
  end.

(** A [for] loop whose body may raise. *)
Fixpoint for_each {S A} (l : list A) (body : A → M S unit) : M S unit :=
  match l with
  | [] => ret tt
  | x :: rest => body x;; for_each rest body
  end.

Definition prepare_allocation (bytes_list : list Z) (tokens : list string)
  : M MemoryDashboard unit :=
  modify (with_step_queue []);;
  for_each (enumerate_from 0 (zip bytes_list tokens))
    (λ '(i, (b, tok)),
       let seg_name := classify_input tok in
       modify (λ d, with_step_queue
                      (step_queue d ++ make_steps b i tok seg_name) d));;
  d ← get;
  log (LogPrepared (length bytes_list) (length (step_queue d))).

(** [next_step]: cancel a pending timer, then pop and call the head of
    the queue. The closure is already off the queue when it runs, so
    it stays off when it raises. *)
Definition next_step : M MemoryDashboard unit :=
  d ← get;
  (if after_id d is Some _ then modify (with_after_id None) else ret tt);;
  d ← get;
  match step_queue d with
  | [] => log LogNoMoreSteps
  | func :: rest =>
      modify (with_step_queue rest);;
      call func
  end.

(** [run_auto_steps], one firing of the timer: pop and call the head
    of the queue and schedule the next firing; when the closure raises,
    nothing is scheduled. *)
Definition run_auto_steps : M MemoryDashboard unit :=
  d ← get;
  match step_queue d with
  | [] => log LogAllocationComplete
  | func :: rest =>
      modify (with_step_queue rest);;
      call func;;
      modify (with_after_id (Some tt))
  end.

(** The fields a step can read or write and an observer can see:
    everything but the queue and the timer handle. *)
Definition observables (d : MemoryDashboard) :=
  (allocator d, memory d, current_byte_value d, current_alloc_info d,
   registers d, log_text d, tree d).

(** Two dashboards that differ in their log only. *)
Definition same_but_log (d d' : MemoryDashboard) : Prop :=
  with_log_text [] d = with_log_text [] d'.

(** Calling the closures of a list one after the other, whatever each
    of them raises. *)
Definition call_in_order (steps : list Step) (d : MemoryDashboard)
  : MemoryDashboard :=
  foldl (λ d func, snd (call func d)) d steps.

(** The queue [prepare_allocation] builds, as a function of the
    pairs. *)
Definition planned_steps (start : nat) (pairs : list (Z * string)) : list Step :=
  '(i, (b, tok)) ← enumerate_from start pairs;
  make_steps b i tok (classify_input tok).


(** ** Clients of the allocator *)

(** One call of a public method of the allocator, and the state it
    leaves (whether it returned or raised). *)
Inductive allocator_call : Type :=
| CallAllocateByte (seg_name : string)
| CallPeekNext (seg_name : string)
| CallPushValue (value : Z)
| CallPopValue.

Definition state_after (c : allocator_call) (a : SegmentAllocator)
  : SegmentAllocator :=
  match c with
  | CallAllocateByte seg_name => snd (allocate_byte seg_name a)
  | CallPeekNext seg_name => snd (peek_next seg_name a)
  | CallPushValue value => snd (push_value value a)
  | CallPopValue => snd (pop_value a)
  end.

(** ** Formatting helpers *)

(** The digit of [format(v, "X")] for a value below sixteen. *)
Definition hex_digit (n : Z) : ascii :=
  chr (if n <? 10 then 48 + n else 55 + n).

(** The upper-case hexadecimal digits of [v ≥ 0], most significant
    first, without padding ([0] for zero); [S (log2 v)] rounds are
    always enough (lemma [hex_digits_value]). *)
Fixpoint hex_digits_loop (fuel : nat) (v : Z) : string :=
  match fuel with
  | O => ""
  | S fuel' =>
      (if Z.shiftr v 4 =? 0 then "" else hex_digits_loop fuel' (Z.shiftr v 4))
      +:+ String (hex_digit (Z.land v 15)) ""
  end.

Definition hex_digits (v : Z) : string :=
  hex_digits_loop (S (Z.to_nat (Z.log2 v))) v.

(** Padding with zeros on the left up to [width] characters. *)
Fixpoint zeros (n : nat) : string :=
  match n with O => "" | S n' => String (chr 48) (zeros n') end.

Definition zero_pad (width : nat) (s : string) : string :=
  zeros (width - String.length s) +:+ s.

(** [f"{v:0{width}X}"]: the sign, if any, counts in the width. *)
Definition format_X (width : nat) (v : Z) : string :=
  if v <? 0 then String (chr 45) (zero_pad (width - 1) (hex_digits (- v)))
  else zero_pad width (hex_digits v).

Definition fmt_seg (seg : Z) : string := format_X 4 seg +:+ "H".
Definition fmt_off (off : Z) : string := format_X 4 off +:+ "H".
Definition fmt_phys (seg off : Z) : string :=
  format_X 5 (Z.shiftl seg 4 + off) +:+ "H".

(** The text [update_display] puts on the label of a segment: the next
    free offset, or [FULL] when [peek_next] raises anything. *)
Definition segment_label (seg : string) (a : SegmentAllocator) : string :=
  match fst (peek_next seg a) with
  | Returned (_, next_off) => seg +:+ ": " +:+ fmt_off next_off
  | Raised _ => seg +:+ ": FULL"
  end.

(** ** Reading bytes back *)

(** The number a little-endian byte sequence stands for. *)
Fixpoint from_low_bytes (bs : list Z) : Z :=
  match bs with
  | [] => 0
  | b :: rest => b + 256 * from_low_bytes rest
  end.

(** The string whose Latin-1 encoding is [bs]. *)
Fixpoint decode_latin1 (bs : list Z) : string :=
  match bs with
  | [] => ""
  | b :: rest => String (chr b) (decode_latin1 rest)
  end.

Definition is_byte (b : Z) : Prop := 0 ≤ b < 256.

(** The non-empty fields of [re.split], the tokens the loop of
    [parse_input_to_bytes] keeps. *)
Definition kept_tokens (text : string) : list string :=
  filter (λ t, nonempty t = true) (re_split (strip text)).


(** Every row of the tree view shows the physical address of its base
    and offset, and the memory map has a cell at that address. *)
Definition tree_consistent (d : MemoryDashboard) : Prop :=
  Forall (λ r, row_phys r = Z.shiftl (row_base r) 4 + row_off r
               ∧ is_Some (memory d !! row_phys r)) (tree d).


(** ** classify_input on arbitrary strings *)

(** A Python [str] in full is the list of its code points. [str_of s]
    is the [str] that the literal [s] of the source denotes. *)
Fixpoint str_of (s : string) : list Z :=
  match s with
  | EmptyString => []
  | String c rest => code c :: str_of rest
  end.

(** [s.startswith(pre)] *)
Fixpoint str_startswith (s pre : list Z) : bool :=
  match pre, s with
  | [], _ => true
  | p :: pre', c :: s' => (p =? c) && str_startswith s' pre'
  | _ :: _, [] => false
  end.

(** [needle in hay] *)
Fixpoint str_contains (needle hay : list Z) : bool :=
  str_startswith hay needle ||
  match hay with
  | [] => false
  | _ :: rest => str_contains needle rest
  end.

(** [token in keywords], the keywords being literals of the source *)
Definition str_in (token : list Z) (keywords : list string) : bool :=
  existsb (λ k, bool_decide (token = str_of k)) keywords.


Section any_string.

(** [str.upper] works one code point at a time. What it gives for a
    code point above U+00FF is a table of the interpreter, taken as a
    parameter; so are [str.isalpha] and [str.isdigit], on which the
    result of [classify_input] does not depend. *)
Variable upper_above_latin1 : Z → list Z.
Variables str_isalpha str_isdigit : list Z → bool.

(** [str.upper] of one code point: below U+0100 the letters [a-z] and
    [0xE0-0xFE] (not the division sign) move down by 32, the sharp s
    becomes [SS], the micro sign becomes U+039C and [0xFF] becomes
    U+0178. *)
Definition upper_code_point (c : Z) : list Z :=
  if in_range 97 122 c then [c - 32]
  else if c =? 181 then [924]
  else if c =? 223 then [83; 83]
  else if in_range 224 254 c && negb (c =? 247) then [c - 32]
  else if c =? 255 then [376]
  else if c <=? 255 then [c]
  else upper_above_latin1 c.

Definition str_upper (s : list Z) : list Z :=
  c ← s; upper_code_point c.

(** [classify_input], on any string. *)
Definition classify_input_str (token : list Z) : string :=
  let token := str_upper token in
  if str_contains (str_of "ES:") token || str_contains (str_of "DEST") token
     || str_startswith token (str_of "MOVS") then "ES"
  else if str_in token stack_keywords then "SS"
  else if str_in token code_keywords then "CS"
  else if str_in token data_keywords || str_isalpha token || str_isdigit token
  then "DS"
  else "DS".

End any_string.


(** On Latin-1, the upper-case forms of [upper] differ from the
    interpreter's by a renaming of two code points: the images of the
    micro sign and of [0xFF]. *)
Definition rename_upper (n : Z) : Z :=
  if n =? 181 then 924 else if n =? 255 then 376 else n.

Definition ascii_only (k : string) : Prop :=
  all_chars (λ c, code c <? 128) k = true.


(** * Properties of the allocator *)

Section allocator_facts.
Implicit Types (a : SegmentAllocator) (si : seg_info) (tag : string).

Lemma allocate_byte_room a tag si :
  segments a !! tag = Some si →
  next_offset si < limit si →
  allocate_byte tag a =
    (Returned (base si, next_offset si),
     {| segments :=
          <[tag := SegInfo (base si) (next_offset si + 1) (limit si)]>
            (segments a);
        stack_pointer := stack_pointer a |}).
Proof.
  intros Hlook Hlt. unfold allocate_byte, mbind, M_bind, bind, segment.
  rewrite Hlook. destruct (Z.ltb_spec (next_offset si) (limit si)); [done | lia].
Qed.

Lemma allocate_byte_full a tag si :
  segments a !! tag = Some si →
  limit si ≤ next_offset si →
  allocate_byte tag a = (Raised (OutOfMemory tag), a).
Proof.
  intros Hlook Hge. unfold allocate_byte, mbind, M_bind, bind, segment.
  rewrite Hlook. destruct (Z.ltb_spec (next_offset si) (limit si)); [lia | done].
Qed.

Lemma allocate_byte_missing a tag :
  segments a !! tag = None →
  allocate_byte tag a = (Raised (KeyError tag), a).
Proof.
  intros Hlook. unfold allocate_byte, mbind, M_bind, bind, segment.
  by rewrite Hlook.
Qed.

Lemma peek_next_unfold a tag :
  peek_next tag a =
    (match segments a !! tag with
     | Some si =>
         if next_offset si <? limit si
         then Returned (base si, next_offset si)
         else Raised (OutOfMemory tag)
     | None => Raised (KeyError tag)
     end, a).
Proof.
  unfold peek_next, mbind, M_bind, bind, segment.
  destruct (segments a !! tag) as [si|]; [|done].
  by destruct (next_offset si <? limit si).
Qed.

Lemma allocate_byte_outcome a tag :
  fst (allocate_byte tag a) = fst (peek_next tag a).
Proof.
  rewrite peek_next_unfold. cbn [fst].
  destruct (segments a !! tag) as [si|] eqn:Hlook.
  - destruct (Z.ltb_spec (next_offset si) (limit si)).
    + by erewrite allocate_byte_room.
    + by erewrite allocate_byte_full.
  - by rewrite allocate_byte_missing.
Qed.

(** [n] consecutive allocations in a segment whose cursor stands at
    [off]: the first [min n (lim - off)] succeed with consecutive
    offsets, all later ones raise, and only the cursor moved. *)
Lemma run_allocate_byte n : ∀ a tag b off lim,
  segments a !! tag = Some (SegInfo b off lim) →
  off ≤ lim →
  let k := Z.of_nat n `min` (lim - off) in
  let '(outs, a') := run_calls (replicate n (allocate_byte tag)) a in
  outs = ((λ o, Returned (b, o)) <$> seqZ off k)
           ++ replicate (n - Z.to_nat k) (Raised (OutOfMemory tag))
  ∧ segments a' !! tag = Some (SegInfo b (off + k) lim)
  ∧ (∀ other, other ≠ tag → segments a' !! other = segments a !! other)
  ∧ stack_pointer a' = stack_pointer a.
Proof.
  induction n as [|n IH]; intros a tag b off lim Hlook Hle k.
  - subst k. cbn [replicate run_calls].
    replace (Z.of_nat 0 `min` (lim - off)) with 0 by lia.
    rewrite Z.add_0_r. done.
  - cbn [replicate run_calls].
    destruct (decide (off < lim)) as [Hlt|Hge].
    + rewrite (allocate_byte_room a tag _ Hlook Hlt). cbn [base next_offset limit].
      set (a1 := {| segments := _ |}).
      assert (Hlook1 : segments a1 !! tag = Some (SegInfo b (off + 1) lim))
        by (subst a1; cbn; by rewrite lookup_insert_eq).
      specialize (IH a1 tag b (off + 1) lim Hlook1 ltac:(lia)). cbn zeta in IH.
      destruct (run_calls _ a1) as [outs a'].
      destruct IH as (Houts & Hseg & Hother & Hsp).
      assert (Hk : k = Z.succ (Z.of_nat n `min` (lim - (off + 1)))) by lia.
      split_and!.
      * rewrite Houts, Hk. rewrite (seqZ_cons off) by lia.
        rewrite Z.pred_succ. rewrite fmap_cons. cbn [app]. do 3 f_equal.
        lia.
      * rewrite Hseg. do 2 f_equal. lia.
      * intros other Hne. rewrite Hother by done. subst a1; cbn.
        by rewrite lookup_insert_ne.
      * by rewrite Hsp.
    + rewrite (allocate_byte_full a tag _ Hlook) by (cbn; lia).
      specialize (IH a tag b off lim Hlook Hle). cbn zeta in IH.
      destruct (run_calls _ a) as [outs a'].
      destruct IH as (Houts & Hseg & Hother & Hsp).
      assert (Hk : k = 0) by lia.
      replace (Z.of_nat n `min` (lim - off)) with 0 in * by lia.
      rewrite Hk. split_and!; try done.
      rewrite Houts. cbn. by rewrite Nat.sub_0_r.
Qed.

End allocator_facts.

(** ** Allocation up to the limit *)

Lemma new_allocator_segments tag :
  tag ∈ seg_tags →
  ∃ b, segments new_allocator !! tag = Some (SegInfo b 0 0x0FFF).
Proof.
  unfold seg_tags. rewrite !elem_of_cons, elem_of_nil.
  intros [->|[->|[->|[->|[]]]]]; eexists; vm_compute; reflexivity.
Qed.

(** C1. From a freshly constructed allocator and for each of the four
    tags, [n] consecutive [allocate_byte] calls return [(base, 0)],
    [(base, 1)], ... for the first [min n limit] calls and raise the
    out-of-memory error for every later call, so exactly [limit] calls
    succeed and call [limit + 1] fails; the cursor ends at
    [min n limit], and any single successful call, in any state, returns
    [(base, next_offset)] and moves [next_offset] up by one. *)
Theorem allocate_byte_exactly_limit (tag : string) (n : nat) :
  tag ∈ seg_tags →
  ∃ b lim,
    segments new_allocator !! tag = Some (SegInfo b 0 lim) ∧
    let '(outs, a') :=
      run_calls (replicate n (allocate_byte tag)) new_allocator in
    outs = ((λ o, Returned (b, o)) <$> seqZ 0 (Z.of_nat n `min` lim))
             ++ replicate (n - Z.to_nat lim) (Raised (OutOfMemory tag))
    ∧ segments a' !! tag = Some (SegInfo b (Z.of_nat n `min` lim) lim)
    ∧ (∀ a r a1, allocate_byte tag a = (Returned r, a1) →
         ∃ si, segments a !! tag = Some si
               ∧ r = (base si, next_offset si)
               ∧ segments a1 !! tag =
                   Some (SegInfo (base si) (next_offset si + 1) (limit si))).
Proof.
  intros Htag. destruct (new_allocator_segments tag Htag) as [b Hlook].
  exists b, 0x0FFF. split; [done|].
  pose proof (run_allocate_byte n new_allocator tag b 0 0x0FFF Hlook ltac:(lia))
    as Hrun. cbn zeta in Hrun.
  destruct (run_calls _ new_allocator) as [outs a'].
  destruct Hrun as (Houts & Hseg & _ & _).
  rewrite Z.sub_0_r, Z.add_0_l in *.
  split_and!.
  - rewrite Houts. do 2 f_equal. lia.
  - done.
  - intros a r a1 Hcall.
    destruct (segments a !! tag) as [si|] eqn:Ha.
    + destruct (decide (next_offset si < limit si)) as [Hlt|Hge].
      * rewrite (allocate_byte_room a tag si Ha Hlt) in Hcall.
        injection Hcall as <- <-. exists si. split_and!; [done..|].
        cbn. by rewrite lookup_insert_eq.
      * rewrite (allocate_byte_full a tag si Ha) in Hcall by lia. done.
    + rewrite (allocate_byte_missing a tag Ha) in Hcall. done.
Qed.

Lemma allocate_byte_exactly_limit_witness :
  "DS" ∈ seg_tags ∧
  ∃ b lim,
    segments new_allocator !! "DS" = Some (SegInfo b 0 lim) ∧
    let '(outs, a') :=
      run_calls (replicate 4096 (allocate_byte "DS")) new_allocator in
    outs = ((λ o, Returned (b, o)) <$> seqZ 0 (Z.of_nat 4096 `min` lim))
             ++ replicate (4096 - Z.to_nat lim) (Raised (OutOfMemory "DS"))
    ∧ segments a' !! "DS" = Some (SegInfo b (Z.of_nat 4096 `min` lim) lim)
    ∧ (∀ a r a1, allocate_byte "DS" a = (Returned r, a1) →
         ∃ si, segments a !! "DS" = Some si
               ∧ r = (base si, next_offset si)
               ∧ segments a1 !! "DS" =
                   Some (SegInfo (base si) (next_offset si + 1) (limit si))).
Proof.
  assert (Hin : "DS" ∈ seg_tags) by (unfold seg_tags; set_solver).
  split; [exact Hin|].
  exact (allocate_byte_exactly_limit "DS" 4096 Hin).
Defined.

(** ** Push and pop *)

(** C2, evaluated on the code: on the fresh allocator, with an empty
    stack, [push_value] raises the stack-overflow error and the stack
    pointer stays at [0xFFFE]; it does not return [0xFFFE] with the
    stack pointer at [0xFFFC]. *)
Lemma push_on_fresh_raises :
  push_value 0x1234 new_allocator = (Raised StackOverflow, new_allocator)
  ∧ ¬ ∃ a1, push_value 0x1234 new_allocator = (Returned 0xFFFE, a1)
            ∧ stack_pointer a1 = 0xFFFC.
Proof.
  assert (H : push_value 0x1234 new_allocator
              = (Raised StackOverflow, new_allocator)) by (vm_compute; reflexivity).
  split; [exact H|]. intros (a1 & Hpush & _). rewrite H in Hpush. discriminate.
Qed.

(** Where [push_value] does succeed: any state whose stack pointer
    [sp] satisfies [SS.base<<4 < sp]. *)
Lemma push_value_above_floor (value : Z) (a : SegmentAllocator) (ss : seg_info) :
  segments a !! "SS" = Some ss →
  Z.shiftl (base ss) 4 < stack_pointer a →
  push_value value a =
    (Returned (stack_pointer a - 2),
     {| segments := segments a; stack_pointer := stack_pointer a - 2 |}).
Proof.
  intros Hss Hlo. unfold push_value, mbind, M_bind, bind, get, segment.
  rewrite Hss.
  destruct (Z.geb_spec (stack_pointer a - 1) (Z.shiftl (base ss) 4)); [done | lia].
Qed.

(** On that state both calls succeed. *)
Example push_then_pop_in_window :
  let a := {| segments := segments new_allocator; stack_pointer := 0x30002 |} in
  let a1 := {| segments := segments new_allocator; stack_pointer := 0x30000 |} in
  push_value 0x1234 a = (Returned 0x30000, a1)
  ∧ pop_value a1 = (Returned 0x30000, a).
Proof. split; vm_compute; reflexivity. Qed.

(** C3, evaluated on the code: on the fresh allocator, with nothing
    pushed, [pop_value] does not raise; it returns [0xFFFE] and moves the
    stack pointer to [0x10000]. *)
Theorem pop_on_fresh_returns :
  pop_value new_allocator =
    (Returned 0xFFFE,
     {| segments := segments new_allocator; stack_pointer := 0x10000 |}).
Proof. vm_compute; reflexivity. Qed.

(** ** peek_next *)

(** C5. [peek_next] leaves the allocator exactly as it found it, any
    number of consecutive calls return the same outcome, and that outcome
    is the one [allocate_byte] has in the same state: the same
    [(base, offset)] pair on success and the same exception (out of
    memory in particular) on failure. *)
Theorem peek_next_read_only (tag : string) (a : SegmentAllocator) :
  snd (peek_next tag a) = a
  ∧ (∀ n, run_calls (replicate n (peek_next tag)) a
          = (replicate n (fst (peek_next tag a)), a))
  ∧ fst (peek_next tag a) = fst (allocate_byte tag a)
  ∧ (fst (peek_next tag a) = Raised (OutOfMemory tag)
     ↔ fst (allocate_byte tag a) = Raised (OutOfMemory tag)).
Proof.
  assert (Hsnd : ∀ a, snd (peek_next tag a) = a)
    by (intros a0; by rewrite peek_next_unfold).
  split_and!.
  - apply Hsnd.
  - induction n as [|n IH]; [done|].
    cbn [replicate run_calls].
    destruct (peek_next tag a) as [o a1] eqn:Hpeek.
    assert (a1 = a) as -> by (rewrite <- (Hsnd a), Hpeek; done).
    rewrite IH. done.
  - by rewrite allocate_byte_outcome.
  - by rewrite allocate_byte_outcome.
Qed.

(** ** The stack pointer over reachable states *)

Lemma push_value_sp value a :
  stack_pointer (snd (push_value value a)) = stack_pointer a
  ∨ stack_pointer (snd (push_value value a)) = stack_pointer a - 2.
Proof.
  unfold push_value, mbind, M_bind, bind, get, segment.
  destruct (segments a !! "SS") as [ss|]; [|by left].
  destruct (_ >=? _); [by right | by left].
Qed.

Lemma pop_value_sp a :
  stack_pointer (snd (pop_value a)) = stack_pointer a
  ∨ stack_pointer (snd (pop_value a)) = stack_pointer a + 2.
Proof.
  unfold pop_value, mbind, M_bind, bind, get, segment.
  destruct (segments a !! "SS") as [ss|]; [|by left].
  destruct (_ <? _); [by right | by left].
Qed.

Lemma allocate_byte_sp tag a :
  stack_pointer (snd (allocate_byte tag a)) = stack_pointer a.
Proof.
  destruct (segments a !! tag) as [si|] eqn:Hlook.
  - destruct (decide (next_offset si < limit si)).
    + by erewrite allocate_byte_room.
    + erewrite allocate_byte_full; [done..|lia].
  - by rewrite allocate_byte_missing.
Qed.

(** The part of the stack invariant that the code keeps: two-byte
    granularity. *)
Lemma reachable_sp_even a : reachable a → Z.even (stack_pointer a) = true.
Proof.
  induction 1 as [|tag a _ IH|tag a _ IH|v a _ IH|a _ IH].
  - reflexivity.
  - by rewrite allocate_byte_sp.
  - by rewrite peek_next_unfold.
  - destruct (push_value_sp v a) as [-> | ->]; [done|].
    by rewrite Z.even_sub, IH.
  - destruct (pop_value_sp a) as [-> | ->]; [done|].
    by rewrite Z.even_add, IH.
Qed.

(** What the code does keep, next to evenness: the stack segment's
    base and limit never change, and the stack pointer stays between
    its initial value and [SS.base<<4 + SS.limit + 1]. *)
Lemma reachable_sp_bounds a :
  reachable a →
  (∃ off, segments a !! "SS" = Some (SegInfo 0x3000 off 0x0FFF))
  ∧ 0xFFFE ≤ stack_pointer a ≤ 0x31000.
Proof.
  induction 1 as [|tag a _ IH|tag a _ IH|v a _ IH|a _ IH].
  - split; [by eexists | done].
  - destruct IH as [[off Hss] Hsp]. rewrite allocate_byte_sp. split; [|done].
    destruct (segments a !! tag) as [si|] eqn:Hlook.
    + destruct (decide (next_offset si < limit si)).
      * erewrite allocate_byte_room by done. cbn.
        destruct (decide (tag = "SS")) as [->|Hne].
        -- rewrite lookup_insert_eq. rewrite Hss in Hlook.
           injection Hlook as <-. by eexists.
        -- rewrite lookup_insert_ne by done. by eexists.
      * erewrite allocate_byte_full; [by eexists | done | lia].
    + rewrite allocate_byte_missing by done. by eexists.
  - by rewrite peek_next_unfold.
  - destruct IH as [[off Hss] Hsp].
    unfold push_value, mbind, M_bind, bind, get, segment. rewrite Hss.
    cbn [base].
    destruct (Z.geb_spec (stack_pointer a - 1) (Z.shiftl 0x3000 4)) as [Hge|];
      cbn; [|eauto].
    split; [eauto|]. change (Z.shiftl 0x3000 4) with 0x30000 in Hge. lia.
  - destruct IH as [[off Hss] Hsp].
    unfold pop_value, mbind, M_bind, bind, get, segment. rewrite Hss.
    cbn [base limit].
    destruct (Z.ltb_spec (stack_pointer a) (Z.shiftl 0x3000 4 + 0x0FFF)) as [Hlt|];
      cbn; [|eauto].
    split; [eauto|]. change (Z.shiftl 0x3000 4) with 0x30000 in Hlt. lia.
Qed.

(** In a reachable state where [push_value] does succeed it returns
    the pointer after the decrement, and the [pop_value] that follows
    always succeeds, returns that same pointer and puts the allocator
    back as it was before the push. *)
Lemma push_then_pop_reachable (value r : Z) (a a1 : SegmentAllocator) :
  reachable a →
  push_value value a = (Returned r, a1) →
  r = stack_pointer a - 2
  ∧ a1 = {| segments := segments a; stack_pointer := stack_pointer a - 2 |}
  ∧ pop_value a1 = (Returned (stack_pointer a - 2), a).
Proof.
  intros Hreach. destruct (reachable_sp_bounds a Hreach) as [[off Hss] Hsp].
  unfold push_value, pop_value, mbind, M_bind, bind, get, segment.
  rewrite Hss. cbn [base limit].
  destruct (Z.geb_spec (stack_pointer a - 1) (Z.shiftl 0x3000 4)) as [Hge|];
    [|done].
  cbn. intros [= <- <-]. cbn. rewrite Hss. cbn [base limit].
  change (Z.shiftl 0x3000 4) with 0x30000 in *.
  destruct (Z.ltb_spec (stack_pointer a - 2) (0x30000 + 0x0FFF)); [|lia].
  cbn. split_and!; [done..|]. destruct a as [segs sp]. cbn. do 3 f_equal. lia.
Qed.

(** C6, evaluated on the code: the freshly constructed allocator is a
    reachable state whose stack pointer, [0xFFFE], lies below
    [SS.base << 4 = 0x30000], outside the window of the invariant. *)
Theorem fresh_sp_outside_stack_window :
  reachable new_allocator
  ∧ stack_pointer new_allocator = 0xFFFE
  ∧ sp_in_stack_window new_allocator = false
  ∧ ¬ (Z.shiftl 0x3000 4 ≤ stack_pointer new_allocator
       ≤ Z.shiftl 0x3000 4 + 0x0FFF).
Proof.
  split_and!; [constructor | reflexivity | vm_compute; reflexivity |].
  intros [Hlow _]. vm_compute in Hlow. by apply Hlow.
Qed.

(** * Properties of the classifier *)

Section classifier_facts.
Implicit Types (s t u token : string) (c : ascii).

Lemma append_cons c s t : String c s +:+ t = String c (s +:+ t).
Proof. reflexivity. Qed.

Lemma append_assoc s t u : (s +:+ t) +:+ u = s +:+ (t +:+ u).
Proof. induction s as [|c s IH]; [done|]. by rewrite !append_cons, IH. Qed.

Lemma upper_append s t : upper (s +:+ t) = upper s +:+ upper t.
Proof.
  induction s as [|c s IH]; [done|].
  rewrite append_cons. cbn [upper]. by rewrite IH, append_assoc.
Qed.

Lemma upper_char_idempotent c : upper (upper_char c) = upper_char c.
Proof. destruct c as [[] [] [] [] [] [] [] []]; vm_compute; reflexivity. Qed.

Lemma upper_idempotent s : upper (upper s) = upper s.
Proof.
  induction s as [|c s IH]; [done|].
  cbn [upper]. by rewrite upper_append, upper_char_idempotent, IH.
Qed.

Lemma in_list_elem_of t (l : list string) : in_list t l = true ↔ t ∈ l.
Proof.
  unfold in_list. rewrite existsb_exists. split.
  - intros (x & Hin & Heq). apply String.eqb_eq in Heq as ->.
    by apply list_elem_of_In.
  - intros Hin. exists t. split; [by apply list_elem_of_In|].
    apply String.eqb_refl.
Qed.

Lemma in_list_not_elem_of t (l : list string) : in_list t l = false ↔ t ∉ l.
Proof.
  rewrite <- in_list_elem_of. destruct (in_list t l); split; try done.
Qed.

(** No overlap between the rules: a stack or code mnemonic never
    matches the extra-segment test, and no word is both a stack and a
    code mnemonic. *)
Lemma stack_keyword_not_es u : u ∈ stack_keywords → es_rule u = false.
Proof.
  unfold stack_keywords. rewrite !elem_of_cons, elem_of_nil.
  intros [->|[->|[]]]; vm_compute; reflexivity.
Qed.

Lemma code_keyword_not_es_nor_stack u :
  u ∈ code_keywords → es_rule u = false ∧ in_list u stack_keywords = false.
Proof.
  unfold code_keywords. rewrite !elem_of_cons, elem_of_nil.
  intros H. repeat (destruct H as [->|H]; [vm_compute; done|]). done.
Qed.

(** [classify_input] read off the upper-cased token. *)
Lemma classify_input_unfold token :
  classify_input token =
    let u := upper token in
    if es_rule u then "ES"
    else if in_list u stack_keywords then "SS"
    else if in_list u code_keywords then "CS"
    else "DS".
Proof.
  unfold classify_input.
  destruct (es_rule (upper token)); [done|].
  destruct (in_list (upper token) stack_keywords); [done|].
  destruct (in_list (upper token) code_keywords); [done|].
  by destruct (_ || _ || _).
Qed.

End classifier_facts.

Section any_string_facts.
Implicit Types (s t pre needle hay token : list Z).







End any_string_facts.


(** * Properties of the tokenizer *)

Section tokenizer_facts.

Lemma shiftr_8_log2 v :
  0 < v → Z.shiftr v 8 ≠ 0 →
  8 ≤ Z.log2 v ∧ Z.log2 (Z.shiftr v 8) = Z.log2 v - 8.
Proof.
  intros Hpos Hnz.
  assert (8 ≤ Z.log2 v).
  { destruct (decide (8 ≤ Z.log2 v)); [done|].
    exfalso. apply Hnz. apply Z.shiftr_eq_0; lia. }
  split; [done|]. rewrite Z.log2_shiftr by done. lia.
Qed.

Lemma low_bytes_loop_enough fuel : ∀ v fuel',
  (Z.to_nat (Z.log2 v) < fuel)%nat → (Z.to_nat (Z.log2 v) < fuel')%nat →
  low_bytes_loop fuel v = low_bytes_loop fuel' v.
Proof.
  induction fuel as [|fuel IH]; intros v fuel' H1 H2; [lia|].
  destruct fuel' as [|fuel']; [lia|]. cbn.
  destruct (Z.ltb_spec 0 v) as [Hpos|]; [|done]. f_equal.
  destruct (decide (Z.shiftr v 8 = 0)) as [->|Hnz].
  { destruct fuel, fuel'; reflexivity. }
  destruct (shiftr_8_log2 v Hpos Hnz) as [Hge Hlog].
  apply IH; lia.
Qed.

(** The loop of the source, as an equation: the fuel of [low_bytes]
    never runs out before [v] reaches zero. *)
Lemma low_bytes_unfold v :
  low_bytes v =
    if 0 <? v then Z.land v 0xFF :: low_bytes (Z.shiftr v 8) else [].
Proof.
  unfold low_bytes at 1. cbn [low_bytes_loop].
  destruct (Z.ltb_spec 0 v) as [Hpos|]; [|done]. f_equal.
  unfold low_bytes.
  destruct (decide (Z.shiftr v 8 = 0)) as [->|Hnz].
  { by destruct (Z.to_nat (Z.log2 v)). }
  destruct (shiftr_8_log2 v Hpos Hnz) as [Hge Hlog].
  apply low_bytes_loop_enough; lia.
Qed.

End tokenizer_facts.

(** C9, evaluated on the code: the one-token input [PUSH] yields four
    bytes and one token, so the two sequences are not of equal length
    and the token is not repeated once per byte. *)
Theorem parse_input_lengths_differ :
  parse_input_to_bytes "PUSH" = Returned ([80; 85; 83; 72], ["PUSH"])
  ∧ (∀ bytes_list tokens,
       parse_input_to_bytes "PUSH" = Returned (bytes_list, tokens) →
       length bytes_list ≠ length tokens).
Proof.
  assert (H : parse_input_to_bytes "PUSH" = Returned ([80; 85; 83; 72], ["PUSH"]))
    by (vm_compute; reflexivity).
  split; [exact H|]. intros bs ts Heq. rewrite H in Heq.
  injection Heq as <- <-. cbn. lia.
Qed.

(** Two more inputs of the same function: an empty quoted string is a
    token without bytes, and a superscript digit passes [isdigit] but
    not [int]. *)
Example parse_input_empty_quotes :
  parse_input_to_bytes "''" = Returned ([], ["''"]).
Proof. vm_compute; reflexivity. Qed.

Example parse_input_superscript_raises :
  parse_input_to_bytes (String (chr 178) "") = Raised ValueError.
Proof. vm_compute; reflexivity. Qed.

(** * Properties of the step pipeline *)

(** Unfolding the closures down to functions on the record. *)
Ltac unfold_steps :=
  unfold call, step_select_segment, step_show_offset, step_calc_physical,
    step_write, special_operations, try_except_MemoryError,
    unpack_current_alloc_info, update_display, log, on_allocator,
    modify, get, raise, ret, mbind, M_bind, bind, mret, M_ret in *.

Section pipeline_facts.
Implicit Types (d : MemoryDashboard) (env : step_env) (func : Step).

Lemma bind_run {S A B} (m : M S A) (k : A → M S B) (s : S) :
  (m ≫= k) s =
    match m s with
    | (Returned a, s') => k a s'
    | (Raised e, s') => (Raised e, s')
    end.
Proof. reflexivity. Qed.

(** Steps neither read nor write the queue and the timer handle. *)
Lemma call_frame func d q i :
  call func (with_after_id i (with_step_queue q d)) =
    (fst (call func d), with_after_id i (with_step_queue q (snd (call func d)))).
Proof.
  destruct func as [[] env], d as [a mem q0 cb ci i0 regs lg tr];
    unfold_steps; cbn -[peek_next allocate_byte pop_value upper].
  - destruct (peek_next (seg_name env) a) as [[[b o]|e] a']; reflexivity.
  - destruct ci as [[[s b] o]|]; reflexivity.
  - destruct ci as [[[s b] o]|]; reflexivity.
  - destruct ci as [[[s b] o]|]; [|reflexivity].
    cbn -[peek_next allocate_byte pop_value upper].
    destruct (allocate_byte s a) as [[r|e] a']; [|reflexivity].
    cbn -[peek_next allocate_byte pop_value upper].
    destruct (_ && _).
    { cbn. destruct cb; reflexivity. }
    destruct (_ && _); [|cbn; destruct cb; reflexivity].
    cbn -[peek_next allocate_byte pop_value upper].
    destruct (pop_value a') as [[r'|[]] a'']; cbn; destruct cb; reflexivity.
Qed.

Lemma call_in_order_frame steps d q i :
  call_in_order steps (with_after_id i (with_step_queue q d)) =
    with_after_id i (with_step_queue q (call_in_order steps d)).
Proof.
  revert d. induction steps as [|func steps IH]; intros d; [done|].
  cbn [call_in_order foldl]. rewrite call_frame. cbn [snd]. apply IH.
Qed.

Lemma call_in_order_app steps1 steps2 d :
  call_in_order (steps1 ++ steps2) d =
    call_in_order steps2 (call_in_order steps1 d).
Proof. apply foldl_app. Qed.

Lemma next_step_cons d func rest :
  step_queue d = func :: rest →
  next_step d = call func (with_after_id None (with_step_queue rest d)).
Proof.
  intros Hq. unfold next_step.
  rewrite bind_run. cbn [get].
  destruct d as [a mem q0 cb ci [[]|] regs lg tr]; cbn in Hq; subst q0;
    reflexivity.
Qed.

Lemma after_calls_0 {S A} (c : M S A) (s : S) : after_calls 0 c s = s.
Proof. reflexivity. Qed.

Lemma after_calls_S {S A} n (c : M S A) (s : S) :
  after_calls (Datatypes.S n) c s = after_calls n c (snd (c s)).
Proof.
  unfold after_calls. cbn [replicate run_calls].
  destruct (c s) as [o s1]. cbn [snd]. by destruct (run_calls _ s1).
Qed.

Lemma after_calls_succ_r {S A} n (c : M S A) (s : S) :
  after_calls (Datatypes.S n) c s = snd (c (after_calls n c s)).
Proof.
  revert s. induction n as [|n IH]; intros s.
  - by rewrite after_calls_S, !after_calls_0.
  - rewrite after_calls_S, IH. by rewrite <- after_calls_S.
Qed.

(** Draining with [next_step]: after [n] clicks the first [n] queued
    closures have been called, in queue order, and the rest is still
    queued. *)
Lemma after_next_steps n : ∀ d,
  (n ≤ length (step_queue d))%nat →
  after_calls n next_step d =
    with_after_id (match n with O => after_id d | _ => None end)
      (with_step_queue (drop n (step_queue d))
         (call_in_order (take n (step_queue d)) d)).
Proof.
  induction n as [|n IH]; intros d Hn.
  - rewrite after_calls_0. by destruct d.
  - destruct (step_queue d) as [|func rest] eqn:Hq; [cbn in Hn; lia|].
    rewrite after_calls_S, (next_step_cons d func rest Hq), call_frame.
    cbn [snd]. rewrite IH by (cbn in *; lia).
    cbn [step_queue with_after_id with_step_queue take drop].
    rewrite call_in_order_frame.
    by destruct n.
Qed.

(** ** The plan *)

Lemma planned_steps_cons start b tok pairs :
  planned_steps start ((b, tok) :: pairs) =
    make_steps b start tok (classify_input tok)
      ++ planned_steps (S start) pairs.
Proof. reflexivity. Qed.

Lemma planned_steps_app pairs1 : ∀ start pairs2,
  planned_steps start (pairs1 ++ pairs2) =
    planned_steps start pairs1
      ++ planned_steps (start + length pairs1) pairs2.
Proof.
  induction pairs1 as [|[b tok] pairs1 IH]; intros start pairs2.
  - cbn [app length]. by rewrite Nat.add_0_r.
  - rewrite <- app_comm_cons, !planned_steps_cons, IH, <- app_assoc.
    do 3 f_equal. cbn [length]. lia.
Qed.

Lemma planned_steps_length pairs : ∀ start,
  length (planned_steps start pairs) = (4 * length pairs)%nat.
Proof.
  induction pairs as [|[b tok] pairs IH]; intros start; [done|].
  rewrite planned_steps_cons, length_app, IH. cbn [make_steps app length]. lia.
Qed.

Lemma planned_steps_take pairs i start :
  take (4 * i) (planned_steps start pairs) = planned_steps start (take i pairs).
Proof.
  destruct (decide (i ≤ length pairs)%nat) as [Hle|Hgt].
  - rewrite <- (take_drop i pairs) at 1. rewrite planned_steps_app.
    rewrite take_app_length'; [done|].
    rewrite planned_steps_length, length_take. lia.
  - rewrite !take_ge; [done | lia |]. rewrite planned_steps_length. lia.
Qed.

Lemma planned_steps_lookup pairs : ∀ start i b tok,
  pairs !! i = Some (b, tok) →
  let env := StepEnv b (start + i) tok (classify_input tok) in
  planned_steps start pairs !! (4 * i)%nat = Some (StepSelectSegment, env)
  ∧ planned_steps start pairs !! (4 * i + 1)%nat = Some (StepShowOffset, env)
  ∧ planned_steps start pairs !! (4 * i + 2)%nat = Some (StepCalcPhysical, env)
  ∧ planned_steps start pairs !! (4 * i + 3)%nat = Some (StepWrite, env).
Proof.
  induction pairs as [|[b0 tok0] pairs IH]; intros start i b tok Hi env; [done|].
  rewrite planned_steps_cons. destruct i as [|i].
  - injection Hi as -> ->. subst env. rewrite Nat.add_0_r. by cbn.
  - cbn in Hi. specialize (IH (S start) i b tok Hi). cbn zeta in IH.
    replace (S start + i)%nat with (start + S i)%nat in IH by lia.
    destruct IH as (H0 & H1 & H2 & H3).
    subst env.
    split_and!; rewrite lookup_app_r by (cbn [make_steps app length]; lia);
      cbn [make_steps app length].
    + by replace (4 * S i - 4)%nat with (4 * i)%nat by lia.
    + by replace (4 * S i + 1 - 4)%nat with (4 * i + 1)%nat by lia.
    + by replace (4 * S i + 2 - 4)%nat with (4 * i + 2)%nat by lia.
    + by replace (4 * S i + 3 - 4)%nat with (4 * i + 3)%nat by lia.
Qed.

(** The loop of [prepare_allocation] appends the plan of the pairs to
    the queue and touches nothing else. *)
Lemma prepare_loop pairs : ∀ start d,
  for_each (enumerate_from start pairs)
    (λ '(i, (b, tok)),
       let seg_name := classify_input tok in
       modify (λ d, with_step_queue
                      (step_queue d ++ make_steps b i tok seg_name) d)) d
  = (Returned tt,
     with_step_queue (step_queue d ++ planned_steps start pairs) d).
Proof.
  induction pairs as [|[b tok] pairs IH]; intros start d.
  - cbn. rewrite app_nil_r. by destruct d.
  - cbn [enumerate_from for_each]. rewrite bind_run. cbn [modify].
    rewrite IH, planned_steps_cons. cbn [step_queue with_step_queue].
    by rewrite <- app_assoc.
Qed.

Lemma prepare_allocation_run bytes_list tokens d :
  prepare_allocation bytes_list tokens d =
    (Returned tt,
     with_log_text
       (log_text d ++
          [LogPrepared (length bytes_list)
             (length (planned_steps 0 (zip bytes_list tokens)))])
       (with_step_queue (planned_steps 0 (zip bytes_list tokens)) d)).
Proof.
  unfold prepare_allocation. rewrite bind_run. cbn [modify].
  rewrite bind_run, prepare_loop. reflexivity.
Qed.

End pipeline_facts.

(** ** Write goes to the previewed physical address *)

(** Whatever state [step_write] runs in, the cell it fills is the one
    at [(base << 4) + off] for the triple found in
    [current_alloc_info], and no other cell changes. *)
Lemma step_write_memory env d seg base off :
  current_alloc_info d = Some (seg, base, off) →
  memory (snd (step_write env d)) =
    <[Z.shiftl base 4 + off := current_byte_value d]> (memory d).
Proof.
  intros Hinfo. destruct d as [a mem q cb ci i regs lg tr]. cbn in Hinfo. subst ci.
  unfold_steps; cbn -[peek_next allocate_byte pop_value upper].
  destruct (allocate_byte seg a) as [[r|e] a']; [|reflexivity].
  cbn -[peek_next allocate_byte pop_value upper].
  destruct (_ && _).
  { cbn. destruct cb; reflexivity. }
  destruct (_ && _); [|cbn; destruct cb; reflexivity].
  cbn -[peek_next allocate_byte pop_value upper].
  destruct (pop_value a') as [[r'|[]] a'']; cbn; destruct cb; reflexivity.
Qed.

(** After a successful [allocate_byte] on the stack segment, the
    [POP] branch cannot fail with anything but the caught error. *)
Lemma pop_value_outcome a :
  is_Some (segments a !! "SS") →
  (∃ r a', pop_value a = (Returned r, a'))
  ∨ pop_value a = (Raised StackUnderflow, a).
Proof.
  intros [ss Hss]. unfold pop_value, mbind, M_bind, bind, get, segment.
  rewrite Hss. destruct (_ <? _); [left; eauto | by right].
Qed.

(** C4. When [SelectSegment] previews [(base, off)] for a byte, the
    three following steps of that byte leave the preview in place and
    the memory map untouched until [Write], which succeeds and stores
    the byte at physical address [(base << 4) + off], the address the
    display row reports; for base [0x2000] and offset [0x0003] that
    is cell [0x20003]. *)
Theorem write_at_previewed_physical
    (env : step_env) (d : MemoryDashboard) (seg_base off : Z) :
  fst (peek_next (seg_name env) (allocator d)) = Returned (seg_base, off) →
  let d1 := snd (step_select_segment env d) in
  let d2 := snd (step_show_offset env d1) in
  let d3 := snd (step_calc_physical env d2) in
  let d4 := snd (step_write env d3) in
  current_alloc_info d3 = Some (seg_name env, seg_base, off)
  ∧ memory d3 = memory d
  ∧ fst (step_write env d3) = Returned tt
  ∧ memory d4 = <[Z.shiftl seg_base 4 + off := Some (byte_value env)]> (memory d)
  ∧ head (tree d4) =
      Some (TreeRow seg_base off (Z.shiftl seg_base 4 + off)
              (byte_value env) (seg_name env))
  ∧ (seg_base = 0x2000 → off = 0x0003 →
     memory d4 !! 0x20003 = Some (Some (byte_value env))).
Proof.
  intros Hpeek d1 d2 d3 d4. rewrite peek_next_unfold in Hpeek. cbn [fst] in Hpeek.
  destruct (segments (allocator d) !! seg_name env) as [si|] eqn:Hseg; [|done].
  destruct (Z.ltb_spec (next_offset si) (limit si)) as [Hlt|]; [|done].
  injection Hpeek as <- <-.
  pose proof (allocate_byte_room _ _ _ Hseg Hlt) as Halloc.
  pose proof (peek_next_unfold (allocator d) (seg_name env)) as Hpk.
  rewrite Hseg in Hpk.
  destruct (Z.ltb_spec (next_offset si) (limit si)) as [_|]; [|lia].
  destruct d as [a mem q cb ci i regs lg tr]. cbn [allocator] in Hseg, Halloc, Hpk.
  assert (Hd3 : d3 =
    Dashboard a mem q (Some (byte_value env))
      (Some (seg_name env, base si, next_offset si)) i regs
      (lg ++ [LogClassified (index env) (token env) (seg_name env)]
          ++ [LogSegmentBase (seg_name env) (base si)]
          ++ [LogNextFreeOffset (index env) (seg_name env) (next_offset si)]
          ++ [LogPhysicalAddress (index env) (base si) (next_offset si)])
      tr).
  { subst d3 d2 d1. unfold_steps. cbn -[peek_next]. rewrite Hpk. cbn.
    by rewrite <- !app_assoc. }
  clearbody d3. subst d3.
  assert (Hw : ∃ lg' regs' a',
    step_write env
      (Dashboard a mem q (Some (byte_value env))
         (Some (seg_name env, base si, next_offset si)) i regs
         (lg ++ [LogClassified (index env) (token env) (seg_name env)]
             ++ [LogSegmentBase (seg_name env) (base si)]
             ++ [LogNextFreeOffset (index env) (seg_name env) (next_offset si)]
             ++ [LogPhysicalAddress (index env) (base si) (next_offset si)])
         tr)
    = (Returned tt,
       Dashboard a'
         (<[Z.shiftl (base si) 4 + next_offset si
              := Some (byte_value env)]> mem)
         q (Some (byte_value env))
         (Some (seg_name env, base si, next_offset si)) i regs' lg'
         (TreeRow (base si) (next_offset si)
            (Z.shiftl (base si) 4 + next_offset si)
            (byte_value env) (seg_name env) :: tr))).
  { unfold_steps; cbn -[peek_next allocate_byte pop_value upper].
    rewrite Halloc. cbn -[peek_next allocate_byte pop_value upper].
    destruct (_ && _); [cbn; eauto|].
    destruct (String.eqb (upper (token env)) "POP" && String.eqb (seg_name env) "SS")
      eqn:Hpop; [|cbn; eauto].
    apply andb_prop in Hpop as [_ Hss%String.eqb_eq].
    cbn -[peek_next allocate_byte pop_value upper].
    match goal with |- context [pop_value ?a1] =>
      destruct (pop_value_outcome a1) as [(r & a2 & ->)| ->] end.
    - cbn. rewrite Hss. by rewrite lookup_insert_eq.
    - cbn; eauto.
    - cbn; eauto. }
  destruct Hw as (lg' & regs' & a' & Hw). subst d4. rewrite Hw.
  cbn [fst snd memory current_alloc_info tree head].
  split_and!; try done.
  intros -> ->. apply lookup_insert_eq.
Qed.

Lemma write_at_previewed_physical_witness :
  let env := StepEnv 0x41 3 "AX" "DS" in
  let d := with_allocator (after_calls 3 (allocate_byte "DS") new_allocator)
             new_dashboard in
  let d1 := snd (step_select_segment env d) in
  let d2 := snd (step_show_offset env d1) in
  let d3 := snd (step_calc_physical env d2) in
  let d4 := snd (step_write env d3) in
  current_alloc_info d3 = Some ("DS", 0x2000, 0x0003)
  ∧ memory d3 = memory d
  ∧ fst (step_write env d3) = Returned tt
  ∧ memory d4 = <[Z.shiftl 0x2000 4 + 0x0003 := Some 0x41]> (memory d)
  ∧ head (tree d4) =
      Some (TreeRow 0x2000 0x0003 (Z.shiftl 0x2000 4 + 0x0003) 0x41 "DS")
  ∧ (0x2000 = 0x2000 → 0x0003 = 0x0003 →
     memory d4 !! 0x20003 = Some (Some 0x41)).
Proof.
  intros env d.
  apply (write_at_previewed_physical env d 0x2000 0x0003).
  vm_compute. reflexivity.
Defined.

(** ** Order of the steps *)

(** C8. [prepare_allocation] queues, for each pair [(b, tok)] at
    position [i] of [zip(bytes_list, tokens)], exactly the four
    closures select-segment, show-offset, calc-physical, write, in
    that order, at queue positions [4i .. 4i+3]. Draining with
    [next_step], click number [n+1] calls exactly the closure queued
    at position [n], on the state the first [n] clicks left; so the
    four steps of byte [i] run in order before any step of byte
    [i+1], and the state seen after [4i] clicks is the one produced
    by the steps of the first [i] pairs alone. *)
Theorem steps_run_in_order
    (bytes_list : list Z) (tokens : list string) (d : MemoryDashboard) :
  let d0 := snd (prepare_allocation bytes_list tokens d) in
  let pairs := zip bytes_list tokens in
  step_queue d0 = planned_steps 0 pairs
  ∧ length (step_queue d0) = (4 * length pairs)%nat
  ∧ (∀ i b tok, pairs !! i = Some (b, tok) →
       let env := StepEnv b i tok (classify_input tok) in
       step_queue d0 !! (4 * i)%nat = Some (StepSelectSegment, env)
       ∧ step_queue d0 !! (4 * i + 1)%nat = Some (StepShowOffset, env)
       ∧ step_queue d0 !! (4 * i + 2)%nat = Some (StepCalcPhysical, env)
       ∧ step_queue d0 !! (4 * i + 3)%nat = Some (StepWrite, env))
  ∧ (∀ n func, step_queue d0 !! n = Some func →
       let dn := after_calls n next_step d0 in
       step_queue dn = func :: drop (S n) (step_queue d0)
       ∧ next_step dn =
           call func
             (with_after_id None
                (with_step_queue (drop (S n) (step_queue d0)) dn))
       ∧ after_calls (S n) next_step d0 = snd (next_step dn))
  ∧ (∀ i, (i ≤ length pairs)%nat →
       observables (after_calls (4 * i) next_step d0) =
         observables (call_in_order (planned_steps 0 (take i pairs)) d0)).
Proof.
  intros d0 pairs.
  assert (Hq : step_queue d0 = planned_steps 0 pairs)
    by (subst d0; by rewrite prepare_allocation_run).
  split_and!.
  - exact Hq.
  - by rewrite Hq, planned_steps_length.
  - intros i b tok Hi. rewrite Hq.
    exact (planned_steps_lookup pairs 0 i b tok Hi).
  - intros n func Hn dn.
    assert (Hlen : (n < length (step_queue d0))%nat)
      by (eapply lookup_lt_Some; eauto).
    assert (Hdn : step_queue dn = func :: drop (S n) (step_queue d0)).
    { subst dn. rewrite after_next_steps by lia.
      cbn [step_queue with_after_id with_step_queue].
      by apply drop_S. }
    split_and!.
    + exact Hdn.
    + by apply next_step_cons.
    + apply after_calls_succ_r.
  - intros i Hi.
    rewrite after_next_steps by (rewrite Hq, planned_steps_length; lia).
    rewrite Hq, planned_steps_take. reflexivity.
Qed.

(** Both drain modes make the same call: on a queue that is not empty,
    one firing of the timer changes the fields a step can touch, and
    the queue, exactly as one click does. *)
Lemma run_auto_steps_as_next_step d func rest :
  step_queue d = func :: rest →
  observables (snd (run_auto_steps d)) = observables (snd (next_step d))
  ∧ step_queue (snd (run_auto_steps d)) = step_queue (snd (next_step d))
  ∧ (fst (run_auto_steps d) = Returned tt ↔ fst (next_step d) = Returned tt).
Proof.
  intros Hq. destruct d as [a mem q cb ci i regs lg tr]. cbn in Hq. subst q.
  set (D := Dashboard a mem (func :: rest) cb ci i regs lg tr).
  assert (Hauto : run_auto_steps D =
            match call func (with_after_id i (with_step_queue rest D)) with
            | (Returned _, d1) => (Returned tt, with_after_id (Some tt) d1)
            | (Raised e, d1) => (Raised e, d1)
            end) by reflexivity.
  assert (Hnext : next_step D =
            call func (with_after_id None (with_step_queue rest D)))
    by (by apply next_step_cons).
  rewrite Hauto, Hnext, !call_frame.
  destruct (call func D) as [[[]|e] d1]; cbn; split_and!; done.
Qed.

(** ** Bytes without a token *)

Section log_frame.

Lemma next_step_same_but_log d d' :
  same_but_log d d' →
  same_but_log (snd (next_step d)) (snd (next_step d')).
Proof.
  unfold same_but_log.
  destruct d as [a mem q cb ci i regs lg tr],
           d' as [a' mem' q' cb' ci' i' regs' lg' tr'].
  cbn. intros [= <- <- <- <- <- <- <- <-].
  unfold next_step. rewrite !bind_run. cbn [get after_id].
  assert (Hgo : ∀ i0,
    with_log_text []
      (snd ((d ← get;
             match step_queue d with
             | [] => log LogNoMoreSteps
             | func :: rest => modify (with_step_queue rest);; call func
             end) (Dashboard a mem q cb ci i0 regs lg tr)))
    = with_log_text []
      (snd ((d ← get;
             match step_queue d with
             | [] => log LogNoMoreSteps
             | func :: rest => modify (with_step_queue rest);; call func
             end) (Dashboard a mem q cb ci i0 regs lg' tr)))).
  { intros i0. rewrite !bind_run. cbn [get step_queue].
    destruct q as [|[[] env] rest]; [reflexivity|..];
      unfold_steps; cbn -[peek_next allocate_byte pop_value upper].
    - destruct (peek_next (seg_name env) a) as [[[b o]|e] a1]; reflexivity.
    - destruct ci as [[[s b] o]|]; reflexivity.
    - destruct ci as [[[s b] o]|]; reflexivity.
    - destruct ci as [[[s b] o]|]; [|reflexivity].
      cbn -[peek_next allocate_byte pop_value upper].
      destruct (allocate_byte s a) as [[r|e] a1]; [|reflexivity].
      cbn -[peek_next allocate_byte pop_value upper].
      destruct (_ && _).
      { cbn. destruct cb; reflexivity. }
      destruct (_ && _); [|cbn; destruct cb; reflexivity].
      cbn -[peek_next allocate_byte pop_value upper].
      destruct (pop_value a1) as [[r'|[]] a2]; cbn; destruct cb; reflexivity. }
  destruct i as [[]|]; cbn [modify ret mret M_ret]; apply Hgo.
Qed.

Lemma after_next_steps_same_but_log n : ∀ d d',
  same_but_log d d' →
  same_but_log (after_calls n next_step d) (after_calls n next_step d').
Proof.
  induction n as [|n IH]; intros d d' H; [done|].
  rewrite !after_calls_S. by apply IH, next_step_same_but_log.
Qed.

Lemma same_but_log_fields d d' :
  same_but_log d d' →
  memory d = memory d' ∧ allocator d = allocator d'
  ∧ registers d = registers d' ∧ tree d = tree d'
  ∧ step_queue d = step_queue d'.
Proof.
  unfold same_but_log. destruct d, d'. cbn. by intros [= -> -> -> -> -> -> -> ->].
Qed.

End log_frame.

Lemma planned_steps_elem_of pairs : ∀ start func,
  func ∈ planned_steps start pairs →
  ∃ i b tok, pairs !! i = Some (b, tok)
             ∧ snd func = StepEnv b (start + i) tok (classify_input tok).
Proof.
  induction pairs as [|[b tok] pairs IH]; intros start func Hin.
  - by apply elem_of_nil in Hin.
  - rewrite planned_steps_cons in Hin. apply elem_of_app in Hin as [Hin|Hin].
    + exists 0%nat, b, tok. split; [done|]. rewrite Nat.add_0_r.
      cbn [make_steps app] in Hin. rewrite !elem_of_cons, elem_of_nil in Hin.
      by destruct Hin as [->|[->|[->|[->|[]]]]].
    + destruct (IH _ _ Hin) as (i & b' & tok' & Hi & Henv).
      exists (S i), b', tok'. split; [done|]. rewrite Henv. f_equal. lia.
Qed.

(** C10. [prepare_allocation] pairs bytes and tokens by position and
    plans four steps for each of the first [min(len(bytes_list),
    len(tokens))] pairs only: the queue is the one planned for the two
    lists cut to that length, every queued step carries a position
    below it with the byte and the token found there, and however far
    the queue is drained the memory map and the allocator are those of
    the run on the cut lists, so a byte beyond the last token is never
    allocated nor written. *)
Theorem surplus_bytes_not_planned
    (bytes_list : list Z) (tokens : list string) (d : MemoryDashboard) :
  let m := (length bytes_list `min` length tokens)%nat in
  let d0 := snd (prepare_allocation bytes_list tokens d) in
  let d0' := snd (prepare_allocation (take m bytes_list) (take m tokens) d) in
  step_queue d0 = planned_steps 0 (zip bytes_list tokens)
  ∧ length (step_queue d0) = (4 * m)%nat
  ∧ step_queue d0 = step_queue d0'
  ∧ (∀ func, func ∈ step_queue d0 →
       (index (snd func) < m)%nat
       ∧ bytes_list !! index (snd func) = Some (byte_value (snd func))
       ∧ tokens !! index (snd func) = Some (token (snd func)))
  ∧ (∀ n, memory (after_calls n next_step d0)
            = memory (after_calls n next_step d0')
          ∧ allocator (after_calls n next_step d0)
            = allocator (after_calls n next_step d0')).
Proof.
  intros m d0 d0'.
  assert (Hzip : zip (take m bytes_list) (take m tokens) = zip bytes_list tokens)
    by (apply zip_with_take_both'; lia).
  assert (Hq : step_queue d0 = planned_steps 0 (zip bytes_list tokens))
    by (subst d0; by rewrite prepare_allocation_run).
  split_and!.
  - exact Hq.
  - rewrite Hq, planned_steps_length, length_zip_with. done.
  - subst d0 d0'. rewrite !prepare_allocation_run. cbn. by rewrite Hzip.
  - intros func Hin. rewrite Hq in Hin.
    destruct (planned_steps_elem_of _ _ _ Hin) as (i & b & tok & Hi & Henv).
    rewrite Henv. cbn [index byte_value token Nat.add].
    apply lookup_zip_with_Some in Hi as (b' & tok' & [= -> ->] & Hb & Htok).
    split_and!; [|done..].
    apply lookup_lt_Some in Hb. apply lookup_lt_Some in Htok. lia.
  - intros n.
    assert (Hsame : same_but_log d0 d0').
    { subst d0 d0'. rewrite !prepare_allocation_run. unfold same_but_log.
      cbn. by rewrite Hzip. }
    apply (after_next_steps_same_but_log n) in Hsame.
    apply same_but_log_fields in Hsame as (? & ? & _). done.
Qed.

(** The same on a concrete input: the token [PUSH] yields four bytes
    but one token, four steps are planned, and a full drain writes the
    first byte only. *)
Example push_token_one_byte_written :
  ∃ bytes_list tokens,
    parse_input_to_bytes "PUSH" = Returned (bytes_list, tokens)
    ∧ length bytes_list = 4%nat
    ∧ let d0 := snd (prepare_allocation bytes_list tokens new_dashboard) in
      length (step_queue d0) = 4%nat
      ∧ map_to_list (memory (after_calls 5 next_step d0))
        = [(0x30000, Some 0x50)].
Proof.
  exists [80; 85; 83; 72], ["PUSH"].
  split; [vm_compute; reflexivity|]. split; [reflexivity|].
  split; vm_compute; reflexivity.
Qed.

(** * Further properties of the allocator *)

Lemma new_allocator_keys tag :
  is_Some (segments new_allocator !! tag) → tag ∈ seg_tags.
Proof.
  intros [si Hnew]. unfold seg_tags. rewrite !elem_of_cons.
  destruct (decide (tag = "CS")); [by left|].
  destruct (decide (tag = "DS")); [by right; left|].
  destruct (decide (tag = "SS")); [by right; right; left|].
  destruct (decide (tag = "ES")); [by right; right; right; left|].
  unfold new_allocator in Hnew. cbn [segments] in Hnew.
  rewrite !lookup_insert_ne in Hnew by done. done.
Qed.

(** In every reachable state the four segments are those of the
    constructor, with their base and limit, and a cursor between zero
    and the limit; no other key appears. *)
Lemma reachable_segments a :
  reachable a →
  ∀ tag,
    match segments new_allocator !! tag with
    | Some si0 =>
        ∃ off, segments a !! tag = Some (SegInfo (base si0) off (limit si0))
               ∧ 0 ≤ off ≤ limit si0
    | None => segments a !! tag = None
    end.
Proof.
  induction 1 as [|seg a _ IH|seg a _ IH|v a _ IH|a _ IH]; intros tag.
  - destruct (segments new_allocator !! tag) as [[b o l]|] eqn:Hnew; [|done].
    exists o. split; [done|].
    destruct (decide (tag ∈ seg_tags)) as [Hin|Hout].
    + destruct (new_allocator_segments tag Hin) as [b' Hb'].
      rewrite Hb' in Hnew. injection Hnew as <- <- <-. cbn. lia.
    + exfalso. apply Hout. apply new_allocator_keys. by rewrite Hnew.
  - specialize (IH tag).
    destruct (segments a !! seg) as [si|] eqn:Hseg.
    + destruct (decide (next_offset si < limit si)) as [Hlt|Hge].
      * rewrite (allocate_byte_room a seg si Hseg Hlt). cbn [snd segments].
        destruct (decide (seg = tag)) as [->|Hne].
        -- rewrite lookup_insert_eq.
           destruct (segments new_allocator !! tag) as [si0|]; [|congruence].
           destruct IH as (off & Hoff & Hrange). rewrite Hseg in Hoff.
           injection Hoff as ->. cbn in *. exists (off + 1). split; [done | lia].
        -- by rewrite lookup_insert_ne.
      * by rewrite (allocate_byte_full a seg si Hseg) by lia.
    + by rewrite (allocate_byte_missing a seg Hseg).
  - rewrite peek_next_unfold. apply IH.
  - specialize (IH tag). unfold push_value, mbind, M_bind, bind, get, segment.
    destruct (segments a !! "SS"); [|done]. by destruct (_ >=? _).
  - specialize (IH tag). unfold pop_value, mbind, M_bind, bind, get, segment.
    destruct (segments a !! "SS"); [|done]. by destruct (_ <? _).
Qed.

(** X1. Every state reachable from the constructor keeps, for each of
    the four tags, the base and the limit the constructor gave it and
    a cursor with [0 ≤ next_offset ≤ limit]; the segment table never
    gains a key. *)
Theorem reachable_cursor_within_limit (a : SegmentAllocator) (tag : string) :
  reachable a →
  (tag ∈ seg_tags →
   ∃ si0 off,
     segments new_allocator !! tag = Some si0
     ∧ segments a !! tag = Some (SegInfo (base si0) off (limit si0))
     ∧ 0 ≤ off ≤ limit si0)
  ∧ (tag ∉ seg_tags → segments a !! tag = None).
Proof.
  intros Hreach. pose proof (reachable_segments a Hreach tag) as Hinv. split.
  - intros Hin. destruct (new_allocator_segments tag Hin) as [b Hb].
    rewrite Hb in Hinv. destruct Hinv as (off & Hoff & Hrange).
    exists (SegInfo b 0 0x0FFF), off. done.
  - intros Hout.
    destruct (segments new_allocator !! tag) as [si0|] eqn:Hnew; [|done].
    exfalso. apply Hout. apply new_allocator_keys. by rewrite Hnew.
Qed.

Lemma reachable_cursor_within_limit_witness :
  let a := snd (allocate_byte "ES" (snd (pop_value new_allocator))) in
  ("ES" ∈ seg_tags →
   ∃ si0 off,
     segments new_allocator !! "ES" = Some si0
     ∧ segments a !! "ES" = Some (SegInfo (base si0) off (limit si0))
     ∧ 0 ≤ off ≤ limit si0)
  ∧ ("ES" ∉ seg_tags → segments a !! "ES" = None).
Proof.
  intros a. apply (reachable_cursor_within_limit a "ES").
  subst a. apply reachable_allocate, reachable_pop, reachable_new.
Defined.

(** X2. Allocations in two different segments do not see each other:
    each returns what it returns when made alone, and the two orders
    leave the same allocator. *)
Theorem allocate_byte_commute (tag1 tag2 : string) (a : SegmentAllocator) :
  tag1 ≠ tag2 →
  fst (allocate_byte tag2 (snd (allocate_byte tag1 a)))
    = fst (allocate_byte tag2 a)
  ∧ snd (allocate_byte tag2 (snd (allocate_byte tag1 a)))
    = snd (allocate_byte tag1 (snd (allocate_byte tag2 a))).
Proof.
  intros Hne.
  assert (Hcase : ∀ tag a0,
    (∃ si, segments a0 !! tag = Some si ∧ next_offset si < limit si
           ∧ allocate_byte tag a0 =
               (Returned (base si, next_offset si),
                {| segments :=
                     <[tag := SegInfo (base si) (next_offset si + 1) (limit si)]>
                       (segments a0);
                   stack_pointer := stack_pointer a0 |}))
    ∨ (∃ e, allocate_byte tag a0 = (Raised e, a0)
            ∧ ∀ a1, segments a1 !! tag = segments a0 !! tag →
                    allocate_byte tag a1 = (Raised e, a1))).
  { intros tag a0. destruct (segments a0 !! tag) as [si|] eqn:Hlook.
    - destruct (decide (next_offset si < limit si)) as [Hlt|Hge].
      + left. exists si. split_and!; [done..|]. by apply allocate_byte_room.
      + right. exists (OutOfMemory tag). split.
        * apply (allocate_byte_full a0 tag si); [done | lia].
        * intros a1 H1. apply (allocate_byte_full a1 tag si); [congruence | lia].
    - right. exists (KeyError tag). split.
      + by apply allocate_byte_missing.
      + intros a1 H1. apply allocate_byte_missing. congruence. }
  destruct (Hcase tag1 a) as [(si1 & Hl1 & Hlt1 & E1)|(e1 & E1 & K1)],
           (Hcase tag2 a) as [(si2 & Hl2 & Hlt2 & E2)|(e2 & E2 & K2)];
    rewrite ?E1, ?E2; cbn [fst snd].
  - set (a1 := {| segments := <[tag1 := _]> (segments a) |}).
    set (a2 := {| segments := <[tag2 := _]> (segments a) |}).
    assert (H21 : segments a1 !! tag2 = Some si2)
      by (subst a1; cbn; by rewrite lookup_insert_ne).
    assert (H12 : segments a2 !! tag1 = Some si1)
      by (subst a2; cbn; by rewrite lookup_insert_ne).
    rewrite (allocate_byte_room a1 tag2 si2 H21 Hlt2),
            (allocate_byte_room a2 tag1 si1 H12 Hlt1).
    cbn. split; [done|]. f_equal. by apply insert_insert_ne.
  - set (a1 := {| segments := <[tag1 := _]> (segments a) |}).
    rewrite (K2 a1) by (subst a1; cbn; by rewrite lookup_insert_ne).
    cbn. by rewrite E1.
  - rewrite E2. cbn. split; [done|].
    set (a2 := {| segments := <[tag2 := _]> (segments a) |}).
    by rewrite (K1 a2) by (subst a2; cbn; by rewrite lookup_insert_ne).
  - by rewrite E2, E1.
Qed.

Lemma allocate_byte_commute_witness :
  fst (allocate_byte "DS" (snd (allocate_byte "CS" new_allocator)))
    = fst (allocate_byte "DS" new_allocator)
  ∧ snd (allocate_byte "DS" (snd (allocate_byte "CS" new_allocator)))
    = snd (allocate_byte "CS" (snd (allocate_byte "DS" new_allocator))).
Proof. apply (allocate_byte_commute "CS" "DS" new_allocator). discriminate. Defined.

(** What a successful preview in a reachable state looks like. *)
Lemma reachable_peek_next a tag b o :
  reachable a →
  fst (peek_next tag a) = Returned (b, o) →
  tag ∈ seg_tags
  ∧ segments new_allocator !! tag = Some (SegInfo b 0 0x0FFF)
  ∧ 0 ≤ o < 0x0FFF.
Proof.
  intros Hreach Hpeek. rewrite peek_next_unfold in Hpeek. cbn [fst] in Hpeek.
  pose proof (reachable_segments a Hreach tag) as Hinv.
  destruct (segments a !! tag) as [si|] eqn:Hlook; [|done].
  destruct (Z.ltb_spec (next_offset si) (limit si)) as [Hlt|]; [|done].
  injection Hpeek as <- <-.
  destruct (segments new_allocator !! tag) as [si0|] eqn:Hnew; [|congruence].
  assert (Hin : tag ∈ seg_tags) by (apply new_allocator_keys; by rewrite Hnew).
  destruct (new_allocator_segments tag Hin) as [b0 Hb0].
  rewrite Hb0 in Hnew. injection Hnew as <-.
  destruct Hinv as (off & Hoff & Hrange). injection Hoff as ->.
  cbn in *. split_and!; [done | done | lia | lia].
Qed.

(** X3. In a reachable state the slots previewed in two different
    segments never have the same physical address: the four windows
    [(base << 4) + offset] do not overlap. *)
Theorem previews_never_collide
    (a : SegmentAllocator) (tag1 tag2 : string) (b1 o1 b2 o2 : Z) :
  reachable a →
  fst (peek_next tag1 a) = Returned (b1, o1) →
  fst (peek_next tag2 a) = Returned (b2, o2) →
  Z.shiftl b1 4 + o1 = Z.shiftl b2 4 + o2 →
  tag1 = tag2.
Proof.
  intros Hreach H1 H2 Hphys.
  destruct (reachable_peek_next a tag1 b1 o1 Hreach H1) as (Hin1 & Hb1 & Ho1).
  destruct (reachable_peek_next a tag2 b2 o2 Hreach H2) as (Hin2 & Hb2 & Ho2).
  rewrite !Z.shiftl_mul_pow2 in Hphys by lia.
  unfold seg_tags in Hin1, Hin2. rewrite !elem_of_cons, elem_of_nil in Hin1, Hin2.
  destruct Hin1 as [->|[->|[->|[->|[]]]]];
    vm_compute in Hb1; injection Hb1 as <-;
    destruct Hin2 as [->|[->|[->|[->|[]]]]];
    vm_compute in Hb2; injection Hb2 as <-;
    first [reflexivity | exfalso; lia].
Qed.

Lemma previews_never_collide_witness : "DS" = "DS".
Proof.
  apply (previews_never_collide new_allocator "DS" "DS" 0x2000 0 0x2000 0).
  - apply reachable_new.
  - vm_compute. reflexivity.
  - vm_compute. reflexivity.
  - reflexivity.
Defined.

(** X4. In a reachable state [allocate_byte] and [peek_next] raise
    [KeyError], leaving the allocator as it was, exactly for the names
    that are not one of the four tags. *)
Theorem unknown_segment_key_error (a : SegmentAllocator) (tag : string) :
  reachable a →
  (tag ∉ seg_tags ↔ allocate_byte tag a = (Raised (KeyError tag), a))
  ∧ (tag ∉ seg_tags ↔ peek_next tag a = (Raised (KeyError tag), a)).
Proof.
  intros Hreach. pose proof (reachable_segments a Hreach tag) as Hinv.
  assert (Hkey : tag ∉ seg_tags ↔ segments a !! tag = None).
  { split.
    - intros Hout.
      destruct (segments new_allocator !! tag) as [si0|] eqn:Hnew; [|done].
      exfalso. apply Hout, new_allocator_keys. by rewrite Hnew.
    - intros Hnone Hin. destruct (new_allocator_segments tag Hin) as [b Hb].
      rewrite Hb in Hinv. destruct Hinv as (off & Hoff & _). congruence. }
  rewrite Hkey. split; split.
  - apply allocate_byte_missing.
  - intros Hraise. destruct (segments a !! tag) as [si|] eqn:Hlook; [|done].
    destruct (decide (next_offset si < limit si)).
    + by rewrite (allocate_byte_room a tag si) in Hraise.
    + rewrite (allocate_byte_full a tag si) in Hraise by (done || lia). done.
  - intros Hnone. by rewrite peek_next_unfold, Hnone.
  - rewrite peek_next_unfold. destruct (segments a !! tag) as [si|]; [|done].
    by destruct (_ <? _).
Qed.

Lemma unknown_segment_key_error_witness :
  ("XS" ∉ seg_tags
   ↔ allocate_byte "XS" new_allocator = (Raised (KeyError "XS"), new_allocator))
  ∧ ("XS" ∉ seg_tags
     ↔ peek_next "XS" new_allocator = (Raised (KeyError "XS"), new_allocator)).
Proof. apply (unknown_segment_key_error new_allocator "XS"), reachable_new. Defined.

(** A full segment stays full under any call. *)
Lemma state_after_full c a tag si :
  segments a !! tag = Some si →
  limit si ≤ next_offset si →
  segments (state_after c a) !! tag = Some si.
Proof.
  intros Hlook Hfull. destruct c as [seg|seg|v|]; cbn [state_after].
  - destruct (segments a !! seg) as [si'|] eqn:Hseg.
    + destruct (decide (next_offset si' < limit si')) as [Hlt|Hge].
      * rewrite (allocate_byte_room a seg si' Hseg Hlt). cbn.
        destruct (decide (seg = tag)) as [->|Hne].
        -- rewrite Hlook in Hseg. injection Hseg as <-. lia.
        -- by rewrite lookup_insert_ne.
      * by rewrite (allocate_byte_full a seg si' Hseg) by lia.
    + by rewrite (allocate_byte_missing a seg Hseg).
  - by rewrite peek_next_unfold.
  - unfold push_value, mbind, M_bind, bind, get, segment.
    destruct (segments a !! "SS"); [|done]. by destruct (_ >=? _).
  - unfold pop_value, mbind, M_bind, bind, get, segment.
    destruct (segments a !! "SS"); [|done]. by destruct (_ <? _).
Qed.

(** X5. Nothing frees a byte: once [allocate_byte] has raised the
    out-of-memory error for a segment, it raises it again after any
    sequence of allocator calls. *)
Theorem out_of_memory_is_permanent
    (a : SegmentAllocator) (tag : string) (calls : list allocator_call) :
  fst (allocate_byte tag a) = Raised (OutOfMemory tag) →
  fst (allocate_byte tag (foldl (λ a c, state_after c a) a calls))
    = Raised (OutOfMemory tag).
Proof.
  intros Hfull.
  assert (Hsi : ∃ si, segments a !! tag = Some si ∧ limit si ≤ next_offset si).
  { destruct (segments a !! tag) as [si|] eqn:Hlook.
    - destruct (decide (next_offset si < limit si)) as [Hlt|Hge].
      + by rewrite (allocate_byte_room a tag si Hlook Hlt) in Hfull.
      + exists si. split; [done | lia].
    - by rewrite (allocate_byte_missing a tag Hlook) in Hfull. }
  clear Hfull. destruct Hsi as (si & Hlook & Hge).
  revert a Hlook. induction calls as [|c calls IH]; intros a Hlook.
  - cbn [foldl]. by rewrite (allocate_byte_full a tag si Hlook Hge).
  - cbn [foldl]. apply IH. by apply state_after_full.
Qed.

Lemma out_of_memory_is_permanent_witness :
  let a := after_calls 4095 (allocate_byte "DS") new_allocator in
  fst (allocate_byte "DS"
         (foldl (λ a c, state_after c a) a
            [CallPopValue; CallAllocateByte "CS"; CallAllocateByte "DS"]))
    = Raised (OutOfMemory "DS").
Proof.
  intros a.
  apply (out_of_memory_is_permanent a "DS"
           [CallPopValue; CallAllocateByte "CS"; CallAllocateByte "DS"]).
  vm_compute. reflexivity.
Defined.

(** * Further properties of the tokenizer *)

Section string_facts.
Implicit Types (s t : string) (c : ascii) (p : ascii → bool).

Lemma code_bounds c : 0 ≤ code c < 256.
Proof. unfold code. pose proof (N_ascii_bounded c). lia. Qed.

Lemma code_chr n : 0 ≤ n < 256 → code (chr n) = n.
Proof. intros Hn. unfold code, chr. rewrite N_ascii_embedding; lia. Qed.

Lemma chr_code c : chr (code c) = c.
Proof. unfold code, chr. by rewrite N2Z.id, ascii_N_embedding. Qed.

Lemma append_nil_r s : s +:+ "" = s.
Proof. induction s as [|c s IH]; [done|]. by rewrite append_cons, IH. Qed.

Lemma all_chars_append p s t :
  all_chars p (s +:+ t) = all_chars p s && all_chars p t.
Proof.
  induction s as [|c s IH]; [done|].
  rewrite append_cons. cbn [all_chars]. by rewrite IH, andb_assoc.
Qed.

Lemma all_chars_impl p (q : ascii → bool) s :
  (∀ c, p c = true → q c = true) →
  all_chars p s = true → all_chars q s = true.
Proof.
  intros Hpq. induction s as [|c s IH]; [done|]. cbn [all_chars].
  intros [Hc Hs]%andb_prop. by rewrite (Hpq c Hc), IH.
Qed.

Lemma last_char_append s c : last_char (s +:+ String c "") = Some c.
Proof.
  induction s as [|c' s IH]; [done|]. rewrite append_cons.
  cbn [last_char]. rewrite IH. by destruct (s +:+ String c "") eqn:E;
    [destruct s; discriminate|].
Qed.

Lemma drop_last_append s c : drop_last (s +:+ String c "") = s.
Proof.
  induction s as [|c' s IH]; [done|]. rewrite append_cons.
  cbn [drop_last]. rewrite IH. by destruct (s +:+ String c "") eqn:E;
    [destruct s; discriminate|].
Qed.

Lemma nonempty_append_r s c : nonempty (s +:+ String c "") = true.
Proof. by destruct s. Qed.

Lemma encode_latin1_bytes s : Forall is_byte (encode_latin1 s).
Proof.
  induction s as [|c s IH]; [constructor|].
  cbn [encode_latin1]. constructor; [apply code_bounds | done].
Qed.

Lemma decode_encode_latin1 s : decode_latin1 (encode_latin1 s) = s.
Proof.
  induction s as [|c s IH]; [done|].
  cbn [encode_latin1 decode_latin1]. by rewrite chr_code, IH.
Qed.

End string_facts.

(** ** The Latin-1 classifier is the classifier on code points *)

Section latin1_bridge.
Variable table : Z → list Z.
Implicit Types (s t k : string) (c : ascii).

Lemma str_of_append s t : str_of (s +:+ t) = str_of s ++ str_of t.
Proof. induction s as [|c s IH]; [done|]. rewrite append_cons. cbn. by rewrite IH. Qed.

Lemma upper_code_point_latin1 c :
  upper_code_point table (code c) = rename_upper <$> str_of (upper_char c).
Proof. destruct c as [[] [] [] [] [] [] [] []]; vm_compute; reflexivity. Qed.

Lemma str_upper_latin1 t :
  str_upper table (str_of t) = rename_upper <$> str_of (upper t).
Proof.
  unfold str_upper. induction t as [|c t IH]; [done|].
  cbn [str_of upper]. rewrite bind_cons, IH, str_of_append, fmap_app.
  by rewrite upper_code_point_latin1.
Qed.

Lemma code_inj c1 c2 : code c1 = code c2 → c1 = c2.
Proof. intros H. by rewrite <- (chr_code c1), <- (chr_code c2), H. Qed.

(** An ASCII character meets a renamed code exactly where it meets
    the character itself. *)
Lemma ascii_meets_renamed c1 c :
  code c1 < 128 → (code c1 = rename_upper (code c) ↔ c1 = c).
Proof.
  intros Hascii. pose proof (code_bounds c). pose proof (code_bounds c1).
  unfold rename_upper.
  destruct (Z.eqb_spec (code c) 181); [split; [lia | intros ->; lia]|].
  destruct (Z.eqb_spec (code c) 255); [split; [lia | intros ->; lia]|].
  split; [apply code_inj | by intros ->].
Qed.

Lemma prefix_renamed k : ∀ s,
  ascii_only k →
  str_startswith (rename_upper <$> str_of s) (str_of k) = String.prefix k s.
Proof.
  unfold ascii_only. induction k as [|c1 k IH]; intros s Hk.
  - by destruct s.
  - cbn [all_chars] in Hk. apply andb_prop in Hk as [Hc%Z.ltb_lt Hk].
    destruct s as [|c s]; [done|]. cbn [str_of fmap list_fmap str_startswith String.prefix].
    rewrite IH by done.
    destruct (ascii_dec c1 c) as [->|Hne].
    + assert (code c = rename_upper (code c)) as <- by (by apply ascii_meets_renamed).
      by rewrite Z.eqb_refl.
    + destruct (Z.eqb_spec (code c1) (rename_upper (code c))) as [Heq|]; [|done].
      by apply ascii_meets_renamed in Heq.
Qed.

Lemma contains_renamed k s :
  ascii_only k →
  str_contains (str_of k) (rename_upper <$> str_of s) = contains k s.
Proof.
  intros Hk. induction s as [|c s IH].
  - cbn [str_of fmap list_fmap str_contains contains].
    by rewrite <- (prefix_renamed k "" Hk).
  - cbn [contains]. rewrite <- (prefix_renamed k (String c s) Hk), <- IH.
    cbn [str_of]. rewrite fmap_cons. reflexivity.
Qed.

Lemma equal_renamed k : ∀ s,
  ascii_only k →
  (rename_upper <$> str_of s = str_of k ↔ s = k).
Proof.
  unfold ascii_only. induction k as [|c1 k IH]; intros s Hk.
  - destruct s; [done|]. split; done.
  - cbn [all_chars] in Hk. apply andb_prop in Hk as [Hc%Z.ltb_lt Hk].
    destruct s as [|c s]; [split; done|]. cbn [str_of fmap list_fmap]. split.
    + intros [= Hhead Htail]. symmetry in Hhead.
      apply ascii_meets_renamed in Hhead as ->; [|done].
      f_equal. by apply IH.
    + intros [= -> ->]. f_equal.
      * symmetry. by apply ascii_meets_renamed.
      * by apply IH.
Qed.

Lemma in_list_renamed s (keywords : list string) :
  Forall ascii_only keywords →
  str_in (rename_upper <$> str_of s) keywords = in_list s keywords.
Proof.
  unfold str_in, in_list. induction 1 as [|k keywords Hk _ IH]; [done|].
  cbn [existsb]. rewrite IH. f_equal.
  destruct (String.eqb_spec s k) as [->|Hne].
  - apply bool_decide_eq_true. by apply equal_renamed.
  - apply bool_decide_eq_false. by rewrite equal_renamed.
Qed.

(** The classifier the pipeline uses, on Latin-1 tokens, is
    [classify_input_str] on the code points of the token. *)
Lemma classify_input_as_code_points (str_isalpha str_isdigit : list Z → bool) t :
  classify_input t
    = classify_input_str table str_isalpha str_isdigit (str_of t).
Proof.
  assert (Hk : ∀ kws, kws = stack_keywords ∨ kws = code_keywords →
            Forall ascii_only kws).
  { intros kws [-> | ->]; repeat constructor. }
  rewrite classify_input_unfold. unfold classify_input_str. cbn zeta.
  rewrite str_upper_latin1.
  rewrite !contains_renamed, prefix_renamed by reflexivity.
  rewrite !in_list_renamed by (apply Hk; tauto).
  unfold es_rule, startswith.
  destruct (_ || _ || _); [done|].
  destruct (in_list (upper t) stack_keywords); [done|].
  destruct (in_list (upper t) code_keywords); [done|].
  by destruct (_ || _ || _).
Qed.

End latin1_bridge.


Section number_facts.

Lemma low_byte_split v :
  0 ≤ v → v = Z.land v 0xFF + 256 * Z.shiftr v 8 ∧ 0 ≤ Z.land v 0xFF < 256.
Proof.
  intros Hv. change 0xFF with (Z.ones 8).
  rewrite Z.land_ones, Z.shiftr_div_pow2 by lia.
  change (2 ^ 8) with 256. pose proof (Z.mod_pos_bound v 256).
  pose proof (Z.div_mod v 256). lia.
Qed.

Lemma low_byte_range v : 0 ≤ Z.land v 0xFF < 256.
Proof.
  change 0xFF with (Z.ones 8). rewrite Z.land_ones by lia.
  apply Z.mod_pos_bound. lia.
Qed.

Lemma low_bytes_loop_bytes fuel : ∀ v, Forall is_byte (low_bytes_loop fuel v).
Proof.
  induction fuel as [|fuel IH]; intros v; [constructor|].
  cbn [low_bytes_loop]. destruct (0 <? v); [|constructor].
  constructor; [apply low_byte_range | apply IH].
Qed.

Lemma number_bytes_are_bytes v : Forall is_byte (number_bytes v).
Proof.
  unfold number_bytes. destruct (v =? 0).
  - constructor; [unfold is_byte; lia | constructor].
  - apply low_bytes_loop_bytes.
Qed.

(** Value and last byte of the loop's result, by induction on [v]
    along the loop equation. *)
Lemma low_bytes_value v :
  0 ≤ v →
  from_low_bytes (low_bytes v) = v
  ∧ (0 < v → ∃ b, last (low_bytes v) = Some b ∧ b ≠ 0).
Proof.
  revert v. apply (Zlt_0_ind (λ v,
    from_low_bytes (low_bytes v) = v
    ∧ (0 < v → ∃ b, last (low_bytes v) = Some b ∧ b ≠ 0))).
  intros v IH Hv. rewrite low_bytes_unfold.
  destruct (Z.ltb_spec 0 v) as [Hpos|Hle].
  - destruct (low_byte_split v Hv) as [Hsplit Hrange].
    pose proof (Z.shiftr_nonneg v 8) as Hsh.
    assert (Hlt : Z.shiftr v 8 < v) by lia.
    destruct (IH (Z.shiftr v 8) ltac:(lia)) as [Hval Hlast].
    cbn [from_low_bytes]. rewrite Hval. split; [lia|]. intros _.
    destruct (decide (Z.shiftr v 8 = 0)) as [Hz|Hnz].
    + rewrite Hz. rewrite low_bytes_unfold. cbn.
      exists (Z.land v 255). split; [done | lia].
    + destruct (Hlast ltac:(lia)) as (b & Hb & Hb0).
      exists b. split; [|done].
      destruct (low_bytes (Z.shiftr v 8)) as [|b' bs']; [done|].
      by rewrite last_cons, Hb.
  - split; [cbn; lia | lia].
Qed.

End number_facts.

(** X6. For every [v ≥ 0] the bytes a numeric token of value [v]
    contributes are a non-empty list of bytes, least significant
    first, that read back as [v], with no zero byte at the high end
    unless [v] itself is zero. *)
Theorem number_bytes_round_trip (v : Z) :
  0 ≤ v →
  from_low_bytes (number_bytes v) = v
  ∧ Forall is_byte (number_bytes v)
  ∧ number_bytes v ≠ []
  ∧ (v = 0 → number_bytes v = [0])
  ∧ (0 < v → ∃ b, last (number_bytes v) = Some b ∧ b ≠ 0).
Proof.
  intros Hv. destruct (low_bytes_value v Hv) as [Hval Hlast].
  split_and!.
  - unfold number_bytes. destruct (Z.eqb_spec v 0) as [->|]; [done | exact Hval].
  - apply number_bytes_are_bytes.
  - unfold number_bytes. destruct (Z.eqb_spec v 0) as [->|Hnz]; [done|].
    destruct (Hlast ltac:(lia)) as (b & Hb & _). intros Hnil.
    by rewrite Hnil in Hb.
  - by intros ->.
  - intros Hpos. unfold number_bytes.
    destruct (Z.eqb_spec v 0); [lia | by apply Hlast].
Qed.

Lemma number_bytes_round_trip_witness :
  from_low_bytes (number_bytes 0x1234) = 0x1234
  ∧ Forall is_byte (number_bytes 0x1234)
  ∧ number_bytes 0x1234 ≠ []
  ∧ (0x1234 = 0 → number_bytes 0x1234 = [0])
  ∧ (0 < 0x1234 → ∃ b, last (number_bytes 0x1234) = Some b ∧ b ≠ 0).
Proof. apply (number_bytes_round_trip 0x1234). lia. Defined.

Section parser_facts.
Implicit Types (s t text : string) (c : ascii) (tokens ts : list string)
  (bs : list Z).

Abbreviation not_separator := (λ c : ascii, negb (is_separator c)).
Abbreviation is_nonempty := (λ t : string, nonempty t = true).

Lemma all_chars_lstrip (p : ascii → bool) s :
  all_chars p s = true → all_chars p (lstrip s) = true.
Proof.
  induction s as [|c s IH]; [done|]. cbn [lstrip].
  destruct (is_space_char c); [|done].
  cbn [all_chars]. intros [_ Hs]%andb_prop. by apply IH.
Qed.

Lemma all_chars_rstrip (p : ascii → bool) s :
  all_chars p s = true → all_chars p (rstrip s) = true.
Proof.
  induction s as [|c s IH]; [done|]. cbn [rstrip all_chars].
  intros [Hc Hs]%andb_prop. specialize (IH Hs).
  destruct (rstrip s) as [|c' s'].
  - destruct (is_space_char c); [done|]. cbn. by rewrite Hc.
  - cbn [all_chars] in *. by rewrite Hc, IH.
Qed.

Lemma all_chars_strip (p : ascii → bool) s :
  all_chars p s = true → all_chars p (strip s) = true.
Proof. intros H. by apply all_chars_rstrip, all_chars_lstrip. Qed.

(** Every field of [re.split] is made of characters of the text, and
    of none of the separators. *)
Lemma re_split_from_fields (p : ascii → bool) s : ∀ field in_run,
  all_chars p s = true →
  all_chars p field = true → all_chars not_separator field = true →
  Forall (λ t, all_chars p t = true ∧ all_chars not_separator t = true)
    (re_split_from field in_run s).
Proof.
  induction s as [|c s IH]; intros field in_run Hs Hp Hn.
  - cbn. by repeat constructor.
  - cbn [all_chars] in Hs. apply andb_prop in Hs as [Hc Hs].
    cbn [re_split_from]. destruct (is_separator c) eqn:Hsep.
    + destruct in_run; [by apply IH|]. constructor; [done | by apply IH].
    + apply IH; [done|..]; rewrite all_chars_append; cbn [all_chars].
      * by rewrite Hp, Hc.
      * by rewrite Hn, Hsep.
Qed.

Lemma re_split_from_separators s : ∀ in_run,
  all_chars is_separator s = true →
  Forall (λ t, t = "") (re_split_from "" in_run s).
Proof.
  induction s as [|c s IH]; intros in_run Hs.
  - cbn. by repeat constructor.
  - cbn [all_chars] in Hs. apply andb_prop in Hs as [Hc Hs].
    cbn [re_split_from]. rewrite Hc.
    destruct in_run; [by apply IH|]. constructor; [done | by apply IH].
Qed.

(** The loop over the tokens skips the empty ones, keeps the others in
    order, and appends what each contributes. *)
Lemma parse_tokens_returned tokens : ∀ bs0 ts0 bs ts,
  parse_tokens tokens bs0 ts0 = Returned (bs, ts) →
  ts = ts0 ++ filter is_nonempty tokens
  ∧ ∃ bss, Forall2 (λ t b, token_bytes t = Returned b)
             (filter is_nonempty tokens) bss
           ∧ bs = bs0 ++ concat bss.
Proof.
  induction tokens as [|t tokens IH]; intros bs0 ts0 bs ts Hrun.
  - cbn in Hrun. injection Hrun as <- <-. rewrite !app_nil_r.
    split; [done|]. exists []. rewrite app_nil_r. by split; [constructor|].
  - cbn [parse_tokens] in Hrun. destruct (nonempty t) eqn:Hne; cbn [negb] in Hrun.
    + destruct (token_bytes t) as [b|e] eqn:Hb; [|done].
      destruct (IH _ _ _ _ Hrun) as (Hts & bss & Hall & Hbs).
      rewrite filter_cons_True by done. split.
      * by rewrite Hts, <- app_assoc.
      * exists (b :: bss). split; [by constructor|].
        by rewrite Hbs, <- app_assoc.
    + rewrite filter_cons_False by (by rewrite Hne). by apply IH.
Qed.

Lemma parse_tokens_raised tokens : ∀ bs0 ts0 e,
  parse_tokens tokens bs0 ts0 = Raised e →
  ∃ t, t ∈ tokens ∧ nonempty t = true ∧ token_bytes t = Raised e.
Proof.
  induction tokens as [|t tokens IH]; intros bs0 ts0 e Hrun; [done|].
  cbn [parse_tokens] in Hrun. destruct (nonempty t) eqn:Hne; cbn [negb] in Hrun.
  - destruct (token_bytes t) as [b|e'] eqn:Hb.
    + destruct (IH _ _ _ Hrun) as (t' & Hin & H'). exists t'.
      split; [by right | done].
    + injection Hrun as ->. exists t. split; [by left | done].
  - destruct (IH _ _ _ Hrun) as (t' & Hin & H'). exists t'.
    split; [by right | done].
Qed.

Lemma int_16_hex s : all_hex s = true → ∃ v, 0 ≤ v ∧ int_16 s = Returned v.
Proof.
  assert (Hnonneg : ∀ s acc, 0 ≤ acc →
            all_chars is_hex_char s = true →
            0 ≤ digits_value 16 hex_digit_value acc s).
  { clear s. induction s as [|c s IH]; intros acc Hacc Hs; [done|].
    cbn [all_chars] in Hs. apply andb_prop in Hs as [Hc Hs].
    cbn [digits_value]. apply IH; [|done].
    unfold is_hex_char, hex_digit_value, in_range in *.
    pose proof (code_bounds c). repeat case_match; lia. }
  intros Hs. unfold int_16. destruct (fullmatch_0x s) eqn:H0x.
  - destruct s as [|c0 [|c1 rest]]; try done. cbn in H0x.
    apply andb_prop in H0x as [_ Hrest]. rewrite Hrest.
    eexists. split; [|done]. apply Hnonneg; [lia|].
    unfold all_hex in Hrest. by apply andb_prop in Hrest as [_ ?].
  - rewrite Hs. eexists. split; [|done]. apply Hnonneg; [lia|].
    unfold all_hex in Hs. by apply andb_prop in Hs as [_ ?].
Qed.

Lemma int_16_0x t : fullmatch_0x t = true → ∃ v, 0 ≤ v ∧ int_16 t = Returned v.
Proof.
  intros H0x.
  assert (Hnonneg : ∀ s acc, 0 ≤ acc →
            all_chars is_hex_char s = true →
            0 ≤ digits_value 16 hex_digit_value acc s).
  { induction s as [|c s IH]; intros acc Hacc Hs; [done|].
    cbn [all_chars] in Hs. apply andb_prop in Hs as [Hc Hs].
    cbn [digits_value]. apply IH; [|done].
    unfold is_hex_char, hex_digit_value, in_range in *.
    pose proof (code_bounds c). repeat case_match; lia. }
  unfold int_16. rewrite H0x.
  destruct t as [|c0 [|c1 rest]]; try done. cbn in H0x.
  apply andb_prop in H0x as [_ Hrest]. rewrite Hrest.
  eexists. split; [|done]. apply Hnonneg; [lia|].
  unfold all_hex in Hrest. by apply andb_prop in Hrest as [_ ?].
Qed.

(** A token raises only in the decimal branch: it passes [isdigit]
    and [int] refuses it. *)
Lemma token_bytes_raised t e :
  token_bytes t = Raised e →
  e = ValueError ∧ isdigit t = true ∧ int_10 t = Raised ValueError.
Proof.
  unfold token_bytes. destruct (is_quoted t); [done|].
  destruct (fullmatch_0x t) eqn:H0x.
  { destruct (int_16_0x t H0x) as (v & _ & ->). done. }
  destruct (fullmatch_hex_H t) eqn:HH.
  { unfold fullmatch_hex_H in HH. destruct (last_char t); [|done].
    apply andb_prop in HH as [_ Hhex].
    destruct (int_16_hex _ Hhex) as (v & _ & ->). done. }
  destruct (fullmatch_hex_1_2 t) eqn:H12.
  { assert (Hhex : all_hex t = true).
    { unfold fullmatch_hex_1_2 in H12. by destruct t as [|? [|? [|? ?]]]. }
    destruct (int_16_hex _ Hhex) as (v & _ & ->). done. }
  destruct (isdigit t) eqn:Hd; [|done].
  unfold int_10. destruct (_ && _); [done|]. by intros [= <-].
Qed.

Lemma token_bytes_are_bytes t b : token_bytes t = Returned b → Forall is_byte b.
Proof.
  unfold token_bytes.
  repeat (case_match; try done); intros [= <-];
    solve [apply encode_latin1_bytes | apply number_bytes_are_bytes].
Qed.

End parser_facts.

(** X7. When [parse_input_to_bytes] returns, the token list holds the
    non-empty fields of the split text, each once and in order, and
    the byte list is the concatenation, in the same order, of what
    each of these tokens contributes. *)
Theorem parse_input_structure (text : string) (bs : list Z) (ts : list string) :
  parse_input_to_bytes text = Returned (bs, ts) →
  ts = kept_tokens text
  ∧ ∃ bss, Forall2 (λ t b, token_bytes t = Returned b) ts bss
           ∧ bs = concat bss
           ∧ length bss = length ts.
Proof.
  unfold parse_input_to_bytes. intros Hrun.
  destruct (parse_tokens_returned _ _ _ _ _ Hrun) as (Hts & bss & Hall & Hbs).
  cbn [app] in Hts, Hbs. fold (kept_tokens text) in Hts, Hall.
  split; [done|]. exists bss. rewrite Hts. split_and!; [done..|].
  symmetry. by eapply Forall2_length.
Qed.

Lemma parse_input_structure_witness :
  ["0x1234"; "AX"] = kept_tokens "0x1234 AX"
  ∧ ∃ bss, Forall2 (λ t b, token_bytes t = Returned b) ["0x1234"; "AX"] bss
           ∧ [0x34; 0x12; 65; 88] = concat bss
           ∧ length bss = length ["0x1234"; "AX"].
Proof.
  apply (parse_input_structure "0x1234 AX" [0x34; 0x12; 65; 88] ["0x1234"; "AX"]).
  vm_compute. reflexivity.
Defined.

(** X8. Whatever the text, the values [parse_input_to_bytes] returns
    as bytes lie in [0, 255], and the tokens it returns are not empty
    and contain no comma, semicolon or white space. *)
Theorem parse_input_bytes_and_tokens_clean
    (text : string) (bs : list Z) (ts : list string) :
  parse_input_to_bytes text = Returned (bs, ts) →
  Forall is_byte bs
  ∧ Forall (λ t, t ≠ ""
                 ∧ all_chars (λ c, negb (is_separator c)) t = true) ts.
Proof.
  unfold parse_input_to_bytes. intros Hrun.
  destruct (parse_tokens_returned _ _ _ _ _ Hrun) as (Hts & bss & Hall & Hbs).
  cbn [app] in Hts, Hbs. split.
  - rewrite Hbs. apply Forall_concat.
    clear Hbs Hts Hrun. induction Hall as [|t b ts' bss' Hb _ IH]; [constructor|].
    constructor; [by eapply token_bytes_are_bytes | done].
  - rewrite Hts. apply Forall_forall. intros t [Hne Hin]%list_elem_of_filter.
    split; [by destruct t|].
    pose proof (re_split_from_fields (λ _, true) (strip text) "" false) as Hf.
    rewrite Forall_forall in Hf.
    apply Hf; [|done..|done].
    clear. induction (strip text) as [|c s IH]; [done|]. done.
Qed.

Lemma parse_input_bytes_and_tokens_clean_witness :
  Forall is_byte [0x34; 0x12; 65; 88]
  ∧ Forall (λ t, t ≠ ""
                 ∧ all_chars (λ c, negb (is_separator c)) t = true)
      ["0x1234"; "AX"].
Proof.
  apply (parse_input_bytes_and_tokens_clean ",0x1234;  AX ").
  vm_compute. reflexivity.
Defined.

(** X9. A text made of separators only (commas, semicolons, white
    space), the empty text included, yields no byte and no token. *)
Theorem parse_input_separators_only (text : string) :
  all_chars is_separator text = true →
  parse_input_to_bytes text = Returned ([], []).
Proof.
  intros Hsep. unfold parse_input_to_bytes.
  pose proof (re_split_from_separators (strip text) false
                (all_chars_strip _ _ Hsep)) as Hfields.
  fold (re_split (strip text)) in Hfields.
  induction Hfields as [|t tokens -> _ IH]; [done|]. exact IH.
Qed.

Lemma parse_input_separators_only_witness :
  parse_input_to_bytes " ,; , " = Returned ([], []).
Proof. apply (parse_input_separators_only " ,; , "). vm_compute. reflexivity. Defined.

(** A token raises exactly when it passes [isdigit] and [int]
    refuses it. *)
Lemma token_bytes_raised_iff t e :
  token_bytes t = Raised e
  ↔ e = ValueError ∧ isdigit t = true ∧ int_10 t = Raised ValueError.
Proof.
  split; [apply token_bytes_raised|]. intros (-> & Hd & Hint).
  unfold isdigit in Hd. apply andb_prop in Hd as [Hne Hall].
  assert (Hclass : ∀ c, is_digit_char c = true →
            c ≠ double_quote ∧ c ≠ single_quote
            ∧ code c ≠ 120 ∧ code c ≠ 72 ∧ code c ≠ 104
            ∧ (is_hex_char c = true → in_range 48 57 (code c) = true)).
  { intros c Hc. split_and!; try (intros ->; by vm_compute in Hc);
      unfold is_digit_char, is_hex_char, in_range in *; lia. }
  assert (Hq : is_quoted t = false).
  { destruct t as [|c t]; [done|]. cbn [all_chars] in Hall.
    apply andb_prop in Hall as [Hc _]. destruct (Hclass c Hc) as (? & ? & _).
    unfold is_quoted, starts_and_ends_with. cbn [first_char].
    rewrite !(bool_decide_eq_false_2 (Some c = Some _)); [done|..]; congruence. }
  assert (H0x : fullmatch_0x t = false).
  { destruct t as [|c0 [|c1 rest]]; [done..|]. cbn [all_chars] in Hall.
    apply andb_prop in Hall as [_ [Hc1 _]%andb_prop].
    destruct (Hclass c1 Hc1) as (_ & _ & Hx & _). cbn [fullmatch_0x].
    replace (code c1 =? 120) with false by lia. by rewrite andb_false_r. }
  assert (HH : fullmatch_hex_H t = false).
  { unfold fullmatch_hex_H. destruct (last_char t) as [c|] eqn:Hlast; [|done].
    assert (Hc : is_digit_char c = true).
    { clear -Hall Hlast. induction t as [|c' t IH]; [done|].
      cbn [all_chars last_char] in *. apply andb_prop in Hall as [Hc' Hall].
      destruct t; [by injection Hlast as <- | by apply IH]. }
    destruct (Hclass c Hc) as (_ & _ & _ & H72 & H104 & _).
    replace (code c =? 72) with false by lia.
    by replace (code c =? 104) with false by lia. }
  assert (Hdec : all_hex t = true →
            all_chars (λ c, in_range 48 57 (code c)) t = true).
  { unfold all_hex. rewrite Hne. cbn [andb]. clear -Hall Hclass.
    induction t as [|c t IH]; [done|]. cbn [all_chars] in *.
    apply andb_prop in Hall as [Hc Hall]. intros [Hh Hhex]%andb_prop.
    destruct (Hclass c Hc) as (_ & _ & _ & _ & _ & Hr).
    by rewrite (Hr Hh), (IH Hall Hhex). }
  assert (H12 : fullmatch_hex_1_2 t = false).
  { destruct (fullmatch_hex_1_2 t) eqn:E; [|done]. exfalso.
    assert (Hhex : all_hex t = true).
    { unfold fullmatch_hex_1_2 in E. by destruct t as [|? [|? [|? ?]]]. }
    unfold int_10 in Hint. by rewrite Hne, (Hdec Hhex) in Hint. }
  unfold token_bytes. rewrite Hq, H0x, HH, H12.
  unfold isdigit. rewrite Hne, Hall. cbn [andb]. by rewrite Hint.
Qed.

Lemma parse_tokens_raises tokens : ∀ bs0 ts0 t e,
  t ∈ tokens → nonempty t = true → token_bytes t = Raised e →
  ∃ e', parse_tokens tokens bs0 ts0 = Raised e'.
Proof.
  induction tokens as [|t0 tokens IH]; intros bs0 ts0 t e Hin Hne Hb.
  - by apply elem_of_nil in Hin.
  - cbn [parse_tokens]. apply elem_of_cons in Hin as [->|Hin].
    + rewrite Hne, Hb. cbn. eauto.
    + destruct (nonempty t0); cbn [negb]; [|by eapply IH].
      destruct (token_bytes t0); [by eapply IH | eauto].
Qed.

(** X10. On a text of ASCII characters, at most 4300 of them (so
    that no decimal conversion is beyond what the interpreter
    accepts), [parse_input_to_bytes] always returns. *)
Theorem parse_input_ascii_returns (text : string) :
  (String.length text ≤ 4300)%nat →
  all_chars (λ c, code c <? 128) text = true →
  ∃ bs ts, parse_input_to_bytes text = Returned (bs, ts).
Proof.
  intros _ Hascii.
  destruct (parse_input_to_bytes text) as [[bs ts]|e] eqn:Hrun; [eauto|].
  exfalso. unfold parse_input_to_bytes in Hrun.
  destruct (parse_tokens_raised _ _ _ _ Hrun) as (t & Hin & Hne & Hb).
  destruct (token_bytes_raised _ _ Hb) as (_ & Hd & Hint).
  pose proof (re_split_from_fields (λ c, code c <? 128) (strip text) "" false
                (all_chars_strip _ _ Hascii) eq_refl eq_refl) as Hf.
  rewrite Forall_forall in Hf. destruct (Hf t Hin) as [Ht _].
  unfold int_10 in Hint. unfold isdigit in Hd.
  apply andb_prop in Hd as [_ Hd]. rewrite Hne in Hint.
  assert (Hdec : all_chars (λ c, in_range 48 57 (code c)) t = true).
  { clear Hint Hne Hin Hb. induction t as [|c t IH]; [done|].
    cbn [all_chars] in *. apply andb_prop in Hd as [Hc Hd].
    apply andb_prop in Ht as [Hc' Ht]. rewrite (IH Hd Ht), andb_true_r.
    unfold is_digit_char, in_range in *. lia. }
  by rewrite Hdec in Hint.
Qed.

Lemma parse_input_ascii_returns_witness :
  ∃ bs ts, parse_input_to_bytes "MOV AX, 300" = Returned (bs, ts).
Proof.
  apply (parse_input_ascii_returns "MOV AX, 300"); [cbn; lia | reflexivity].
Defined.

(** X25. On a text of Latin-1 characters (every character at most
    U+00FF), at most 4300 of them, [parse_input_to_bytes] raises
    exactly when one of the tokens it keeps passes [isdigit] while
    [int] refuses it (a token of digits with a superscript two, three
    or one among them), and what it raises is [ValueError]. *)
Theorem parse_input_raises_only_on_odd_digits (text : string) :
  (String.length text ≤ 4300)%nat →
  ((∃ e, parse_input_to_bytes text = Raised e)
   ↔ ∃ t, t ∈ kept_tokens text
          ∧ isdigit t = true ∧ int_10 t = Raised ValueError)
  ∧ (∀ e, parse_input_to_bytes text = Raised e → e = ValueError).
Proof.
  intros _.
  assert (Hraise : ∀ e, parse_input_to_bytes text = Raised e →
            e = ValueError
            ∧ ∃ t, t ∈ kept_tokens text
                   ∧ isdigit t = true ∧ int_10 t = Raised ValueError).
  { intros e Hrun. unfold parse_input_to_bytes in Hrun.
    destruct (parse_tokens_raised _ _ _ _ Hrun) as (t & Hin & Hne & Hb).
    destruct (token_bytes_raised _ _ Hb) as (-> & Hd & Hint).
    split; [done|]. exists t. split; [|done].
    unfold kept_tokens. by apply list_elem_of_filter. }
  split; [split|].
  - intros [e Hrun]. by destruct (Hraise e Hrun).
  - intros (t & Hin & Hd & Hint). unfold kept_tokens in Hin.
    apply list_elem_of_filter in Hin as [Hne Hin].
    unfold parse_input_to_bytes. eapply parse_tokens_raises; [done..|].
    by apply token_bytes_raised_iff.
  - intros e Hrun. by destruct (Hraise e Hrun).
Qed.

Lemma parse_input_raises_only_on_odd_digits_witness :
  ((∃ e, parse_input_to_bytes (String (chr 49) (String (chr 178) "")) = Raised e)
   ↔ ∃ t, t ∈ kept_tokens (String (chr 49) (String (chr 178) ""))
          ∧ isdigit t = true ∧ int_10 t = Raised ValueError)
  ∧ (∀ e, parse_input_to_bytes (String (chr 49) (String (chr 178) "")) = Raised e
          → e = ValueError).
Proof.
  apply (parse_input_raises_only_on_odd_digits
           (String (chr 49) (String (chr 178) ""))).
  cbn. lia.
Defined.

Lemma rstrip_keeps_last s c :
  is_space_char c = false → rstrip (s +:+ String c "") = s +:+ String c "".
Proof.
  intros Hc. induction s as [|c' s IH].
  - change ("" +:+ String c "") with (String c ""). cbn [rstrip].
    by rewrite Hc.
  - rewrite append_cons. cbn [rstrip]. rewrite IH.
    by destruct s.
Qed.

Lemma re_split_from_clean s : ∀ field in_run,
  all_chars (λ c, negb (is_separator c)) s = true →
  re_split_from field in_run s = [field +:+ s].
Proof.
  induction s as [|c s IH]; intros field in_run Hs.
  - cbn. by rewrite append_nil_r.
  - cbn [all_chars] in Hs. apply andb_prop in Hs as [Hc%negb_true_iff Hs].
    cbn [re_split_from]. rewrite Hc, IH by done.
    by rewrite append_assoc.
Qed.

(** X11. For a string [s] of Latin-1 characters (every character at
    most U+00FF) without separators, the text made of [s] between two
    single or two double quotes is parsed as one token that
    contributes one byte per character of [s], its Latin-1 codes in
    order, even when [s] looks like a number; decoding the bytes
    gives [s] back. *)
Theorem quoted_token_round_trip (q : ascii) (s : string) :
  q = double_quote ∨ q = single_quote →
  all_chars (λ c, negb (is_separator c)) s = true →
  parse_input_to_bytes (String q (s +:+ String q ""))
    = Returned (encode_latin1 s, [String q (s +:+ String q "")])
  ∧ decode_latin1 (encode_latin1 s) = s
  ∧ length (encode_latin1 s) = String.length s.
Proof.
  intros Hq Hs.
  assert (Hqc : is_space_char q = false ∧ is_separator q = false)
    by (destruct Hq as [-> | ->]; by vm_compute).
  destruct Hqc as [Hspace Hsep].
  assert (Hquoted : is_quoted (String q (s +:+ String q "")) = true).
  { unfold is_quoted, starts_and_ends_with.
    rewrite <- append_cons, last_char_append, append_cons. cbn [first_char].
    destruct Hq as [-> | ->]; by vm_compute. }
  assert (Hstrip : strip (String q (s +:+ String q ""))
                   = String q (s +:+ String q "")).
  { unfold strip. cbn [lstrip]. rewrite Hspace.
    rewrite <- append_cons. by apply rstrip_keeps_last. }
  assert (Hclean : all_chars (λ c, negb (is_separator c))
                     (String q (s +:+ String q "")) = true).
  { cbn [all_chars]. rewrite all_chars_append, Hs, Hsep. cbn [all_chars].
    by rewrite Hsep. }
  split_and!.
  - unfold parse_input_to_bytes, re_split.
    rewrite Hstrip, (re_split_from_clean _ "" false Hclean).
    change ("" +:+ String q (s +:+ String q "")) with (String q (s +:+ String q "")).
    cbn [parse_tokens nonempty negb app].
    unfold token_bytes. rewrite Hquoted. cbn [strip_ends].
    by rewrite drop_last_append.
  - apply decode_encode_latin1.
  - clear. induction s as [|c s IH]; [done|].
    cbn [encode_latin1 length String.length]. by f_equal.
Qed.

Lemma quoted_token_round_trip_witness :
  parse_input_to_bytes (String single_quote ("12" +:+ String single_quote ""))
    = Returned (encode_latin1 "12",
                [String single_quote ("12" +:+ String single_quote "")])
  ∧ decode_latin1 (encode_latin1 "12") = "12"
  ∧ length (encode_latin1 "12") = String.length "12".
Proof.
  apply (quoted_token_round_trip single_quote "12"); [by right | reflexivity].
Defined.

Section format_facts.
Implicit Types (s t : string) (c : ascii) (v : Z).

Lemma digits_value_snoc radix (f : ascii → Z) s : ∀ acc c,
  digits_value radix f acc (s +:+ String c "")
    = radix * digits_value radix f acc s + f c.
Proof.
  induction s as [|c' s IH]; intros acc c; [done|].
  rewrite append_cons. cbn [digits_value]. apply IH.
Qed.

Lemma digits_value_zeros n s :
  digits_value 16 hex_digit_value 0 (zeros n +:+ s)
    = digits_value 16 hex_digit_value 0 s.
Proof. induction n as [|n IH]; [done|]. cbn [zeros]. by rewrite append_cons. Qed.

Lemma hex_digit_spec n :
  0 ≤ n < 16 →
  hex_digit_value (hex_digit n) = n ∧ is_hex_char (hex_digit n) = true.
Proof.
  intros Hn.
  assert (n = 0 ∨ n = 1 ∨ n = 2 ∨ n = 3 ∨ n = 4 ∨ n = 5 ∨ n = 6 ∨ n = 7
          ∨ n = 8 ∨ n = 9 ∨ n = 10 ∨ n = 11 ∨ n = 12 ∨ n = 13 ∨ n = 14
          ∨ n = 15) as Hcases by lia.
  repeat (destruct Hcases as [->|Hcases]; [by vm_compute|]). subst. by vm_compute.
Qed.

Lemma low_nibble_split v :
  0 ≤ v → v = 16 * Z.shiftr v 4 + Z.land v 15 ∧ 0 ≤ Z.land v 15 < 16.
Proof.
  intros Hv. change 15 with (Z.ones 4).
  rewrite Z.land_ones, Z.shiftr_div_pow2 by lia.
  change (2 ^ 4) with 16. pose proof (Z.mod_pos_bound v 16).
  pose proof (Z.div_mod v 16). lia.
Qed.

(** The digits of [format(v, "X")] are hexadecimal characters that
    stand for [v]; the fuel of [hex_digits] suffices. *)
Lemma hex_digits_loop_value fuel : ∀ v,
  0 ≤ v → (Z.to_nat (Z.log2 v) < fuel)%nat →
  digits_value 16 hex_digit_value 0 (hex_digits_loop fuel v) = v
  ∧ all_chars is_hex_char (hex_digits_loop fuel v) = true
  ∧ nonempty (hex_digits_loop fuel v) = true.
Proof.
  induction fuel as [|fuel IH]; intros v Hv Hfuel; [lia|].
  cbn [hex_digits_loop]. destruct (low_nibble_split v Hv) as [Hsplit Hrange].
  destruct (hex_digit_spec _ Hrange) as [Hval Hhex].
  rewrite digits_value_snoc, all_chars_append, nonempty_append_r, Hval.
  cbn [all_chars]. rewrite Hhex.
  destruct (Z.eqb_spec (Z.shiftr v 4) 0) as [Hz|Hnz].
  - cbn. split_and!; [lia | done..].
  - pose proof (Z.shiftr_nonneg v 4) as Hsh.
    assert (Hpos : 0 < v) by lia.
    assert (4 ≤ Z.log2 v).
    { destruct (decide (4 ≤ Z.log2 v)); [done|].
      exfalso. apply Hnz. apply Z.shiftr_eq_0; lia. }
    assert (Hlog : Z.log2 (Z.shiftr v 4) = Z.log2 v - 4)
      by (rewrite Z.log2_shiftr by done; lia).
    destruct (IH (Z.shiftr v 4) ltac:(lia) ltac:(lia)) as (IHv & IHh & _).
    rewrite IHv, IHh. split_and!; [lia | done..].
Qed.

Lemma hex_digits_value v :
  0 ≤ v →
  digits_value 16 hex_digit_value 0 (hex_digits v) = v
  ∧ all_hex (hex_digits v) = true.
Proof.
  intros Hv. unfold hex_digits, all_hex.
  destruct (hex_digits_loop_value (S (Z.to_nat (Z.log2 v))) v Hv ltac:(lia))
    as (Hval & Hhex & Hne).
  by rewrite Hval, Hhex, Hne.
Qed.

Lemma zero_pad_value width v :
  0 ≤ v →
  digits_value 16 hex_digit_value 0 (zero_pad width (hex_digits v)) = v
  ∧ all_hex (zero_pad width (hex_digits v)) = true.
Proof.
  intros Hv. destruct (hex_digits_value v Hv) as [Hval Hhex].
  unfold zero_pad. rewrite digits_value_zeros, Hval. split; [done|].
  unfold all_hex in *. apply andb_prop in Hhex as [Hne Hall].
  rewrite all_chars_append, Hall, andb_true_r.
  assert (Hz : ∀ n, all_chars is_hex_char (zeros n) = true)
    by (induction n as [|n IHn]; [done | cbn [zeros all_chars]; by rewrite IHn]).
  rewrite Hz, andb_true_r.
  destruct (hex_digits v); [done|]. by destruct (zeros _).
Qed.

(** No string of hexadecimal digits is a [0x] literal. *)
Lemma hex_string_not_0x s t :
  all_chars is_hex_char s = true → fullmatch_0x (s +:+ t) = true →
  s = "" ∨ ∃ c, s = String c "".
Proof.
  intros Hs H0x. destruct s as [|c0 [|c1 rest]]; [by left | right; eauto |].
  exfalso. rewrite !append_cons in H0x. cbn [fullmatch_0x] in H0x.
  cbn [all_chars] in Hs. apply andb_prop in Hs as [_ [Hc1 _]%andb_prop].
  apply andb_prop in H0x as [[_ Hx%Z.eqb_eq]%andb_prop _].
  unfold is_hex_char, in_range in Hc1. lia.
Qed.

(** What the tokenizer makes of a padded hexadecimal number followed
    by [H]. *)
Lemma token_bytes_hex_H s :
  all_hex s = true →
  token_bytes (s +:+ "H")
    = Returned (number_bytes (digits_value 16 hex_digit_value 0 s)).
Proof.
  intros Hhex. pose proof Hhex as Hhex'. unfold all_hex in Hhex'.
  apply andb_prop in Hhex' as [Hne Hall].
  assert (Hq : is_quoted (s +:+ "H") = false).
  { unfold is_quoted, starts_and_ends_with. rewrite last_char_append.
    rewrite !(bool_decide_eq_false_2 (Some _ = Some _)) by (by vm_compute).
    by rewrite !andb_false_r. }
  assert (H0x : ∀ t, fullmatch_0x (s +:+ t) = true → ∃ c, s = String c "").
  { intros t H. destruct (hex_string_not_0x s t Hall H) as [->|]; done. }
  assert (H0xH : fullmatch_0x (s +:+ "H") = false).
  { destruct (fullmatch_0x (s +:+ "H")) eqn:E; [|done].
    destruct (H0x _ E) as [c ->].
    change (String c "" +:+ "H") with (String c "H") in E.
    cbn [fullmatch_0x] in E.
    apply andb_prop in E as [[_ E]%andb_prop _]. by vm_compute in E. }
  assert (H0xs : fullmatch_0x s = false).
  { destruct (fullmatch_0x s) eqn:E; [|done].
    rewrite <- (append_nil_r s) in E. destruct (H0x _ E) as [c ->]. done. }
  unfold token_bytes. rewrite Hq, H0xH.
  unfold fullmatch_hex_H. rewrite last_char_append, drop_last_append, Hhex.
  cbn [andb orb Z.eqb code]. replace (code "H" =? 72) with true by done.
  cbn [orb andb]. unfold int_16. by rewrite H0xs, Hhex.
Qed.

End format_facts.

(** X12. What the dashboard prints can be typed back in: for every
    value [v ≥ 0], the text [fmt_off v] (and [fmt_seg v], and
    [fmt_phys seg off] for a non-negative address) is one token that
    the tokenizer reads as the number [v], whose bytes read back as
    [v]. *)
Theorem formatted_number_reads_back (v seg off : Z) :
  0 ≤ v → 0 ≤ Z.shiftl seg 4 + off →
  token_bytes (fmt_off v) = Returned (number_bytes v)
  ∧ token_bytes (fmt_seg v) = Returned (number_bytes v)
  ∧ token_bytes (fmt_phys seg off)
    = Returned (number_bytes (Z.shiftl seg 4 + off))
  ∧ from_low_bytes (number_bytes v) = v.
Proof.
  intros Hv Hphys.
  assert (Hfmt : ∀ width w, 0 ≤ w →
            token_bytes (format_X width w +:+ "H") = Returned (number_bytes w)).
  { intros width w Hw. unfold format_X.
    destruct (Z.ltb_spec w 0); [lia|].
    destruct (zero_pad_value width w Hw) as [Hval Hhex].
    by rewrite (token_bytes_hex_H _ Hhex), Hval. }
  unfold fmt_off, fmt_seg, fmt_phys. rewrite !Hfmt by done.
  split_and!; [done..|].
  unfold number_bytes. destruct (Z.eqb_spec v 0) as [->|]; [done|].
  by apply low_bytes_value.
Qed.

Lemma formatted_number_reads_back_witness :
  token_bytes (fmt_off 0x0FFE) = Returned (number_bytes 0x0FFE)
  ∧ token_bytes (fmt_seg 0x0FFE) = Returned (number_bytes 0x0FFE)
  ∧ token_bytes (fmt_phys 0x2000 3)
    = Returned (number_bytes (Z.shiftl 0x2000 4 + 3))
  ∧ from_low_bytes (number_bytes 0x0FFE) = 0x0FFE.
Proof.
  apply (formatted_number_reads_back 0x0FFE 0x2000 3); [lia|].
  vm_compute. discriminate.
Defined.

Section decimal_tokens.
Implicit Types (t : string) (c : ascii).

Abbreviation is_decimal := (λ c : ascii, in_range 48 57 (code c)).

Lemma decimal_last_char t c :
  all_chars is_decimal t = true → last_char t = Some c → is_decimal c = true.
Proof.
  induction t as [|c' t IH]; [done|]. cbn [all_chars last_char].
  intros [Hc Ht]%andb_prop. destruct t as [|c'' t'].
  - by intros [= <-].
  - by apply IH.
Qed.

Lemma decimal_digits_value radix t : ∀ acc,
  all_chars is_decimal t = true →
  digits_value radix hex_digit_value acc t
    = digits_value radix (λ c, code c - 48) acc t.
Proof.
  induction t as [|c t IH]; intros acc; [done|]. cbn [all_chars digits_value].
  intros [Hc Ht]%andb_prop. rewrite IH by done.
  unfold hex_digit_value. by rewrite Hc.
Qed.

Lemma decimal_token_not_special t :
  nonempty t = true → all_chars is_decimal t = true →
  is_quoted t = false ∧ fullmatch_0x t = false ∧ fullmatch_hex_H t = false
  ∧ all_hex t = true ∧ isdigit t = true.
Proof.
  intros Hne Hdec. split_and!.
  - destruct t as [|c t]; [done|]. cbn [all_chars] in Hdec.
    apply andb_prop in Hdec as [Hc _].
    unfold is_quoted, starts_and_ends_with. cbn [first_char].
    rewrite !(bool_decide_eq_false_2 (Some c = Some _)); [done|..];
      intros [= ->]; by vm_compute in Hc.
  - destruct t as [|c0 [|c1 rest]]; [done..|]. cbn [all_chars] in Hdec.
    apply andb_prop in Hdec as [_ [Hc1 _]%andb_prop].
    cbn [fullmatch_0x]. unfold in_range in Hc1.
    replace (code c1 =? 120) with false by lia. by rewrite andb_false_r.
  - unfold fullmatch_hex_H. destruct (last_char t) as [c|] eqn:Hlast; [|done].
    pose proof (decimal_last_char t c Hdec Hlast) as Hc. unfold in_range in Hc.
    replace (code c =? 72) with false by lia.
    by replace (code c =? 104) with false by lia.
  - unfold all_hex. rewrite Hne. cbn [andb].
    apply (all_chars_impl is_decimal); [|done].
    intros c Hc. unfold is_hex_char. by rewrite Hc.
  - unfold isdigit. rewrite Hne. cbn [andb].
    apply (all_chars_impl is_decimal); [|done].
    intros c Hc. unfold is_digit_char. by rewrite Hc.
Qed.

End decimal_tokens.

(** X13. A token made of the decimal digits [0-9] only is read in
    base sixteen when it has one or two digits and in base ten when it
    has three or more: the same digits stand for different numbers
    depending on how many there are. (Up to 4300 digits, the length
    beyond which the interpreter may refuse a decimal conversion.) *)
Theorem decimal_token_radix (t : string) :
  nonempty t = true →
  all_chars (λ c, in_range 48 57 (code c)) t = true →
  (String.length t ≤ 4300)%nat →
  token_bytes t =
    Returned (number_bytes
                (digits_value (if (String.length t <=? 2)%nat then 16 else 10)
                   (λ c, code c - 48) 0 t)).
Proof.
  intros Hne Hdec _.
  destruct (decimal_token_not_special t Hne Hdec) as (Hq & H0x & HH & Hhex & Hd).
  unfold token_bytes. rewrite Hq, H0x, HH.
  destruct (String.length t <=? 2)%nat eqn:Hlen.
  - assert (H12 : fullmatch_hex_1_2 t = true).
    { unfold fullmatch_hex_1_2. destruct t as [|c0 [|c1 [|c2 rest]]]; done. }
    rewrite H12. unfold int_16. rewrite H0x, Hhex.
    by rewrite decimal_digits_value.
  - assert (H12 : fullmatch_hex_1_2 t = false).
    { unfold fullmatch_hex_1_2. destruct t as [|c0 [|c1 [|c2 rest]]]; done. }
    rewrite H12, Hd. unfold int_10. by rewrite Hne, Hdec.
Qed.

Lemma decimal_token_radix_witness :
  token_bytes "10" =
    Returned (number_bytes
                (digits_value (if (String.length "10" <=? 2)%nat then 16 else 10)
                   (λ c, code c - 48) 0 "10"))
  ∧ token_bytes "100" =
    Returned (number_bytes
                (digits_value (if (String.length "100" <=? 2)%nat then 16 else 10)
                   (λ c, code c - 48) 0 "100")).
Proof.
  split.
  - apply (decimal_token_radix "10"); [reflexivity | reflexivity | cbn; lia].
  - apply (decimal_token_radix "100"); [reflexivity | reflexivity | cbn; lia].
Defined.

(** X14. The label [update_display] gives a segment reads [FULL]
    exactly when the next [allocate_byte] in that segment would raise;
    otherwise it shows the offset that call would return. *)
Theorem segment_label_full (seg : string) (a : SegmentAllocator) :
  (segment_label seg a = seg +:+ ": FULL"
   ↔ ∃ e, fst (allocate_byte seg a) = Raised e)
  ∧ (∀ b off, fst (allocate_byte seg a) = Returned (b, off) →
              segment_label seg a = seg +:+ ": " +:+ fmt_off off).
Proof.
  unfold segment_label. rewrite allocate_byte_outcome.
  destruct (fst (peek_next seg a)) as [[b off]|e]; split.
  - split; [|by intros [e He]]. intros Heq. exfalso.
    apply (inj (String.app seg)) in Heq.
    apply (inj (String.app ": ")) in Heq.
    apply (f_equal last_char) in Heq. unfold fmt_off in Heq.
    rewrite last_char_append in Heq. by vm_compute in Heq.
  - by intros b' off' [= <- <-].
  - split; eauto.
  - done.
Qed.

(** * Further properties of the step pipeline *)

Lemma peek_next_pair tag a : peek_next tag a = (fst (peek_next tag a), a).
Proof. by rewrite peek_next_unfold. Qed.

(** All the ways through one queued closure: the four closures, the
    context set or not, the allocation succeeding or not, the token
    being [PUSH], [POP] or neither, the pop succeeding or not. *)
Ltac call_cases func d :=
  let env := fresh "env" in
  destruct func as [[] env];
  destruct d as [a mem q cb ci i regs lg tr];
  unfold_steps; cbn -[peek_next allocate_byte pop_value upper];
  [ rewrite (peek_next_pair (seg_name env) a);
    destruct (fst (peek_next (seg_name env) a)) as [[b o]|e] eqn:Hpeek
  | destruct ci as [[[s b] o]|]
  | destruct ci as [[[s b] o]|]
  | destruct ci as [[[s b] o]|];
    [ cbn -[peek_next allocate_byte pop_value upper];
      destruct (allocate_byte s a) as [[r|e] a'] eqn:Halloc;
      [ cbn -[peek_next allocate_byte pop_value upper];
        destruct (String.eqb (upper (token env)) "PUSH" && String.eqb s "SS")
          eqn:Hpush;
        [ | destruct (String.eqb (upper (token env)) "POP" && String.eqb s "SS")
              eqn:Hpop;
            [ cbn -[peek_next allocate_byte pop_value upper];
              destruct (pop_value a') as [[r'|[]] a''] eqn:Hpopped | ] ]
      | ]
    | ] ];
  cbn -[peek_next allocate_byte pop_value upper];
  try (destruct cb; cbn -[peek_next allocate_byte pop_value upper]).

(** X15. The three preview steps are observational: whatever they
    return or raise, select-segment, show-offset and calc-physical
    leave the memory map, the allocator, the registers, the tree view
    and the queue exactly as they were. *)
Theorem preview_steps_change_nothing
    (kind : step_fun) (env : step_env) (d : MemoryDashboard) :
  kind ≠ StepWrite →
  let d' := snd (call (kind, env) d) in
  memory d' = memory d ∧ allocator d' = allocator d
  ∧ registers d' = registers d ∧ tree d' = tree d
  ∧ step_queue d' = step_queue d.
Proof.
  intros Hkind d'. subst d'. destruct kind; [..|done];
    destruct d as [a mem q cb ci i regs lg tr];
    unfold_steps; cbn -[peek_next].
  - rewrite (peek_next_pair (seg_name env) a).
    by destruct (fst (peek_next (seg_name env) a)) as [[b o]|e].
  - by destruct ci as [[[s b] o]|].
  - by destruct ci as [[[s b] o]|].
Qed.

Lemma preview_steps_change_nothing_witness :
  let env := StepEnv 0x41 0 "AX" "DS" in
  let d' := snd (call (StepSelectSegment, env) new_dashboard) in
  memory d' = memory new_dashboard ∧ allocator d' = allocator new_dashboard
  ∧ registers d' = registers new_dashboard ∧ tree d' = tree new_dashboard
  ∧ step_queue d' = step_queue new_dashboard.
Proof.
  intros env.
  apply (preview_steps_change_nothing StepSelectSegment env new_dashboard).
  discriminate.
Defined.

(** X16. A select-segment step whose preview raises (the segment is
    full, or unknown) raises the same exception and leaves the whole
    dashboard untouched; in particular the context of the previous
    byte stays in place for the steps that follow. *)
Theorem failed_select_changes_nothing
    (env : step_env) (d : MemoryDashboard) (e : exn) :
  fst (peek_next (seg_name env) (allocator d)) = Raised e →
  step_select_segment env d = (Raised e, d).
Proof.
  intros Hpeek. destruct d as [a mem q cb ci i regs lg tr]. cbn in Hpeek.
  unfold_steps; cbn -[peek_next].
  by rewrite (peek_next_pair (seg_name env) a), Hpeek.
Qed.

Lemma failed_select_changes_nothing_witness :
  let d := with_allocator (after_calls 4095 (allocate_byte "DS") new_allocator)
             new_dashboard in
  step_select_segment (StepEnv 0x41 0 "AX" "DS") d
    = (Raised (OutOfMemory "DS"), d).
Proof.
  intros d.
  apply (failed_select_changes_nothing (StepEnv 0x41 0 "AX" "DS") d).
  vm_compute. reflexivity.
Defined.

(** X17. The write step stores before it allocates: when the segment
    of the current context has no room (or is unknown), the byte is
    put in the memory map all the same, then the step raises, with no
    register, tree row, log line or cursor changed. *)
Theorem write_stores_before_it_fails
    (env : step_env) (d : MemoryDashboard) (seg : string) (b off : Z) (e : exn) :
  current_alloc_info d = Some (seg, b, off) →
  fst (allocate_byte seg (allocator d)) = Raised e →
  step_write env d =
    (Raised e,
     with_memory (<[Z.shiftl b 4 + off := current_byte_value d]> (memory d)) d).
Proof.
  intros Hinfo Halloc. destruct d as [a mem q cb ci i regs lg tr].
  cbn in Hinfo, Halloc. subst ci.
  assert (Hrun : allocate_byte seg a = (Raised e, a)).
  { destruct (segments a !! seg) as [si|] eqn:Hlook.
    - destruct (decide (next_offset si < limit si)) as [Hlt|Hge].
      + by rewrite (allocate_byte_room a seg si Hlook Hlt) in Halloc.
      + rewrite (allocate_byte_full a seg si Hlook) in Halloc |- * by lia.
        by injection Halloc as <-.
    - rewrite (allocate_byte_missing a seg Hlook) in Halloc |- *.
      by injection Halloc as <-. }
  unfold_steps; cbn -[allocate_byte]. by rewrite Hrun.
Qed.

Lemma write_stores_before_it_fails_witness :
  let d := with_current_alloc_info (Some ("DS", 0x2000, 0x0FFE))
             (with_current_byte_value (Some 0x41)
                (with_allocator
                   (after_calls 4095 (allocate_byte "DS") new_allocator)
                   new_dashboard)) in
  step_write (StepEnv 0x42 1 "BX" "DS") d =
    (Raised (OutOfMemory "DS"),
     with_memory (<[Z.shiftl 0x2000 4 + 0x0FFE := current_byte_value d]> (memory d)) d).
Proof.
  intros d.
  apply (write_stores_before_it_fails (StepEnv 0x42 1 "BX" "DS") d "DS"
           0x2000 0x0FFE (OutOfMemory "DS")).
  - reflexivity.
  - vm_compute. reflexivity.
Defined.

(** One click, seen from the fields: either the queue was empty and
    only a log line was added, or the head closure was called. *)
Lemma next_step_run d :
  (step_queue d = []
   ∧ next_step d =
       (Returned tt,
        with_after_id None
          (with_log_text (log_text d ++ [LogNoMoreSteps]) d)))
  ∨ (∃ func rest,
       step_queue d = func :: rest
       ∧ snd (next_step d) =
           with_after_id None (with_step_queue rest (snd (call func d)))).
Proof.
  destruct (step_queue d) as [|func rest] eqn:Hq.
  - left. split; [done|]. unfold next_step. rewrite bind_run. cbn [get].
    destruct d as [a mem q cb ci [[]|] regs lg tr]; cbn in Hq; subst q; reflexivity.
  - right. exists func, rest. split; [done|].
    by rewrite (next_step_cons d func rest Hq), call_frame.
Qed.

Lemma call_registers func d (reg : string) :
  registers (snd (call func d)) !! reg = registers d !! reg
  ∨ ((reg = "AX" ∨ reg = "BX")
     ∧ registers (snd (call func d)) !! reg = Some 0x1234).
Proof.
  call_cases func d; try (by left);
    match goal with
    | |- context [<[?k := _]> _ !! reg] =>
        destruct (decide (reg = k)) as [->|Hne];
          [right; split; [tauto | by rewrite lookup_insert_eq]
          |left; by rewrite lookup_insert_ne]
    end.
Qed.

(** X18. However many steps are run, the register file changes in two
    entries at most: [AX] and [BX] may become [0x1234]; every other
    entry, the [SP] entry included, keeps its value, whatever happens
    to the allocator's stack pointer. *)
Theorem registers_only_ax_bx (n : nat) (d : MemoryDashboard) (r : string) :
  registers (after_calls n next_step d) !! r = registers d !! r
  ∨ ((r = "AX" ∨ r = "BX")
     ∧ registers (after_calls n next_step d) !! r = Some 0x1234).
Proof.
  revert d. induction n as [|n IH]; intros d; [by left|].
  rewrite after_calls_S.
  assert (Hone : registers (snd (next_step d)) !! r = registers d !! r
                 ∨ ((r = "AX" ∨ r = "BX")
                    ∧ registers (snd (next_step d)) !! r = Some 0x1234)).
  { destruct (next_step_run d) as [[_ ->]|(func & rest & _ & ->)]; [by left|].
    apply (call_registers func d r). }
  destruct (IH (snd (next_step d))) as [Hsame|[Hr Hval]]; [|by right].
  rewrite Hsame. exact Hone.
Qed.

(** Clicks on an empty queue. *)
Lemma after_next_steps_empty (n : nat) (d : MemoryDashboard) :
  step_queue d = [] →
  let d' := after_calls n next_step d in
  memory d' = memory d ∧ allocator d' = allocator d
  ∧ registers d' = registers d ∧ tree d' = tree d
  ∧ step_queue d' = []
  ∧ log_text d' = log_text d ++ replicate n LogNoMoreSteps.
Proof.
  revert d. induction n as [|n IH]; intros d Hq d'; subst d'.
  - rewrite after_calls_0, app_nil_r. done.
  - rewrite after_calls_S.
    destruct (next_step_run d) as [[_ Hrun]|(func & rest & Hq' & _)];
      [|congruence].
    rewrite Hrun. cbn [snd].
    destruct (IH (with_after_id None
                    (with_log_text (log_text d ++ [LogNoMoreSteps]) d)))
      as (Hm & Ha & Hr & Ht & Hqn & Hl); [done|].
    rewrite Hm, Ha, Hr, Ht, Hqn, Hl. cbn. by rewrite <- app_assoc.
Qed.

(** X19. Clicking on with an empty queue is harmless: each click adds
    the line saying that no step is left and cancels the timer; memory
    map, allocator, registers and tree view stay as they are and the
    queue stays empty. *)
Theorem next_step_on_empty_queue (n : nat) (d : MemoryDashboard) :
  step_queue d = [] →
  let d' := after_calls n next_step d in
  memory d' = memory d ∧ allocator d' = allocator d
  ∧ registers d' = registers d ∧ tree d' = tree d
  ∧ step_queue d' = []
  ∧ log_text d' = log_text d ++ replicate n LogNoMoreSteps.
Proof. apply after_next_steps_empty. Qed.

Lemma next_step_on_empty_queue_witness :
  let d' := after_calls 3 next_step new_dashboard in
  memory d' = memory new_dashboard ∧ allocator d' = allocator new_dashboard
  ∧ registers d' = registers new_dashboard ∧ tree d' = tree new_dashboard
  ∧ step_queue d' = []
  ∧ log_text d' = log_text new_dashboard ++ replicate 3 LogNoMoreSteps.
Proof. apply (next_step_on_empty_queue 3 new_dashboard). reflexivity. Defined.

(** X20. Continuous mode schedules its next firing only after a step
    that returned: when the head closure raises, [run_auto_steps]
    raises too, the closure is off the queue, the rest stays queued
    and no new timer is set; on an empty queue it logs completion and
    sets no timer either. *)
Theorem auto_mode_stops_on_error (d : MemoryDashboard) :
  (step_queue d = [] →
   run_auto_steps d =
     (Returned tt, with_log_text (log_text d ++ [LogAllocationComplete]) d))
  ∧ (∀ func rest, step_queue d = func :: rest →
       (fst (call func d) = Returned tt →
        fst (run_auto_steps d) = Returned tt
        ∧ after_id (snd (run_auto_steps d)) = Some tt
        ∧ step_queue (snd (run_auto_steps d)) = rest)
       ∧ (∀ e, fst (call func d) = Raised e →
            fst (run_auto_steps d) = Raised e
            ∧ after_id (snd (run_auto_steps d)) = after_id d
            ∧ step_queue (snd (run_auto_steps d)) = rest)).
Proof.
  destruct d as [a mem q cb ci i regs lg tr]. split.
  - cbn. by intros ->.
  - intros func rest Hq. cbn in Hq. subst q.
    set (D := Dashboard a mem (func :: rest) cb ci i regs lg tr).
    assert (Hauto : run_auto_steps D =
              match call func (with_after_id i (with_step_queue rest D)) with
              | (Returned _, d1) => (Returned tt, with_after_id (Some tt) d1)
              | (Raised e, d1) => (Raised e, d1)
              end) by reflexivity.
    rewrite Hauto, call_frame.
    destruct (call func D) as [[[]|e] d1]; cbn; split; try done;
      try (by intros e' [= <-]).
Qed.

Lemma call_stack_pointer func d :
  stack_pointer (allocator d) ≤ stack_pointer (allocator (snd (call func d))).
Proof.
  call_cases func d;
    try (pose proof (allocate_byte_sp s a) as Hsp1; rewrite Halloc in Hsp1;
         cbn [snd] in Hsp1);
    try (pose proof (pop_value_sp a') as Hsp2; rewrite Hpopped in Hsp2;
         cbn [snd] in Hsp2);
    cbn; lia.
Qed.

(** What one closure does to the allocator's stack pointer. *)
Lemma call_stack_pointer_moves func d :
  let sp := stack_pointer (allocator d) in
  let sp' := stack_pointer (allocator (snd (call func d))) in
  sp' = sp
  ∨ (sp' = sp + 2
     ∧ fst func = StepWrite
     ∧ upper (token (snd func)) = "POP"
     ∧ ∃ b off, current_alloc_info d = Some ("SS", b, off)).
Proof.
  call_cases func d;
    try (pose proof (allocate_byte_sp s a) as Hsp1; rewrite Halloc in Hsp1;
         cbn [snd] in Hsp1);
    try (pose proof (pop_value_sp a') as Hsp2; rewrite Hpopped in Hsp2;
         cbn [snd] in Hsp2; destruct Hsp2 as [Hsp2|Hsp2]);
    cbn;
    first [ left; lia
          | right; split; [lia|]; split; [done|];
            apply andb_prop in Hpop as [Htok%String.eqb_eq ->%String.eqb_eq];
            split; [done | eauto] ].
Qed.

(** X21. The pipeline never pushes. One queued closure either leaves
    the allocator's stack pointer where it is or raises it by two, and
    it raises it only when it is the write step of a token whose
    upper-case form is [POP], run with the stack segment as context;
    so a [PUSH] token never moves the stack pointer, and no run of
    steps ever lowers it. *)
Theorem pipeline_never_lowers_stack_pointer
    (n : nat) (d : MemoryDashboard) (func : Step) :
  (let sp := stack_pointer (allocator d) in
   let sp' := stack_pointer (allocator (snd (call func d))) in
   (sp' = sp
    ∨ (sp' = sp + 2
       ∧ fst func = StepWrite
       ∧ upper (token (snd func)) = "POP"
       ∧ ∃ b off, current_alloc_info d = Some ("SS", b, off)))
   ∧ (upper (token (snd func)) = "PUSH" → sp' = sp))
  ∧ stack_pointer (allocator d)
    ≤ stack_pointer (allocator (after_calls n next_step d)).
Proof.
  split.
  - cbn zeta. pose proof (call_stack_pointer_moves func d) as Hmove.
    cbn zeta in Hmove. split; [exact Hmove|].
    intros Hpush. destruct Hmove as [Hsame|(_ & _ & Hpop & _)]; [done|].
    rewrite Hpush in Hpop. discriminate.
  - clear func. revert d. induction n as [|n IH]; intros d;
      [by rewrite after_calls_0|].
    rewrite after_calls_S. etrans; [|apply IH].
    destruct (next_step_run d) as [[_ ->]|(func & rest & _ & ->)]; [done|].
    apply (call_stack_pointer func d).
Qed.

Lemma call_tree_consistent func d :
  tree_consistent d → tree_consistent (snd (call func d)).
Proof.
  assert (Hins : ∀ (mem : gmap Z (option Z)) p v rows,
    Forall (λ r, row_phys r = Z.shiftl (row_base r) 4 + row_off r
                 ∧ is_Some (mem !! row_phys r)) rows →
    Forall (λ r, row_phys r = Z.shiftl (row_base r) 4 + row_off r
                 ∧ is_Some (<[p := v]> mem !! row_phys r)) rows).
  { intros m0 p0 v0 rows Hrows. eapply Forall_impl; [exact Hrows|].
    intros row [Hp Hm]. split; [done|].
    rewrite lookup_insert_is_Some. destruct (decide (p0 = row_phys row)); tauto. }
  unfold tree_consistent.
  call_cases func d; intros Hrows; try done;
    try (by apply Hins);
    (constructor; [cbn; split; [done | by rewrite lookup_insert_eq]
                  | by apply Hins]).
Qed.

(** X22. Every row the tree view ever shows is backed by the memory
    map: along any run of steps, each row's physical address is
    [(base << 4) + offset] of that row and the memory map has a cell
    there. *)
Theorem tree_rows_backed_by_memory (n : nat) (d : MemoryDashboard) :
  tree_consistent d → tree_consistent (after_calls n next_step d).
Proof.
  revert d. induction n as [|n IH]; intros d Hd; [by rewrite after_calls_0|].
  rewrite after_calls_S. apply IH.
  destruct (next_step_run d) as [[_ ->]|(func & rest & _ & ->)]; [done|].
  apply (call_tree_consistent func d Hd).
Qed.

Lemma tree_rows_backed_by_memory_witness :
  tree_consistent
    (after_calls 8 next_step
       (snd (prepare_allocation [0x50; 0x55] ["PUSH"; "AX"] new_dashboard))).
Proof.
  apply (tree_rows_backed_by_memory 8
           (snd (prepare_allocation [0x50; 0x55] ["PUSH"; "AX"] new_dashboard))).
  constructor.
Defined.

Lemma pop_value_segments a : segments (snd (pop_value a)) = segments a.
Proof.
  unfold pop_value, mbind, M_bind, bind, get, segment.
  destruct (segments a !! "SS"); [|done]. by destruct (_ <? _).
Qed.

Lemma allocate_byte_returned tag a r a1 :
  allocate_byte tag a = (Returned r, a1) → is_Some (segments a1 !! tag).
Proof.
  intros Hrun. destruct (segments a !! tag) as [si|] eqn:Hlook.
  - destruct (decide (next_offset si < limit si)) as [Hlt|Hge].
    + rewrite (allocate_byte_room a tag si Hlook Hlt) in Hrun.
      injection Hrun as <- <-. cbn. rewrite lookup_insert_eq. eauto.
    + by rewrite (allocate_byte_full a tag si Hlook) in Hrun by lia.
  - by rewrite (allocate_byte_missing a tag Hlook) in Hrun.
Qed.

(** X23. A write step whose segment has room always completes, in
    whatever state it runs: it returns, fills the cell at the address
    of the current context with the current byte, moves the cursors
    exactly as the one [allocate_byte] call does, and puts exactly one
    new row, for that address and byte, on top of the tree view. *)
Theorem write_commits_when_room
    (env : step_env) (d : MemoryDashboard)
    (seg : string) (b off v : Z) (r : Z * Z) :
  current_alloc_info d = Some (seg, b, off) →
  current_byte_value d = Some v →
  fst (allocate_byte seg (allocator d)) = Returned r →
  let d' := snd (step_write env d) in
  fst (step_write env d) = Returned tt
  ∧ memory d' = <[Z.shiftl b 4 + off := Some v]> (memory d)
  ∧ segments (allocator d')
    = segments (snd (allocate_byte seg (allocator d)))
  ∧ tree d' = TreeRow b off (Z.shiftl b 4 + off) v seg :: tree d
  ∧ step_queue d' = step_queue d.
Proof.
  intros Hinfo Hbyte Halloc. destruct d as [a mem q cb ci i regs lg tr].
  cbn in Hinfo, Hbyte, Halloc. subst ci cb.
  destruct (allocate_byte seg a) as [[r0|e] a1] eqn:Hrun; [|done].
  cbn in Halloc. injection Halloc as ->.
  unfold_steps; cbn -[allocate_byte pop_value upper]. rewrite Hrun.
  cbn -[allocate_byte pop_value upper].
  destruct (_ && _); [cbn; done|].
  destruct (String.eqb (upper (token env)) "POP" && String.eqb seg "SS")
    eqn:Hpop; [|cbn; done].
  apply andb_prop in Hpop as [_ ->%String.eqb_eq].
  cbn -[allocate_byte pop_value upper].
  pose proof (pop_value_segments a1) as Hsegs.
  destruct (pop_value_outcome a1 (allocate_byte_returned _ _ _ _ Hrun))
    as [(r' & a2 & Hp)|Hp]; rewrite Hp in Hsegs |- *; cbn in Hsegs |- *;
    by rewrite ?Hsegs.
Qed.

Lemma write_commits_when_room_witness :
  let env := StepEnv 0x53 2 "POP" "SS" in
  let d := with_current_alloc_info (Some ("SS", 0x3000, 7))
             (with_current_byte_value (Some 0x53) new_dashboard) in
  let d' := snd (step_write env d) in
  fst (step_write env d) = Returned tt
  ∧ memory d' = <[Z.shiftl 0x3000 4 + 7 := Some 0x53]> (memory d)
  ∧ segments (allocator d')
    = segments (snd (allocate_byte "SS" (allocator d)))
  ∧ tree d' = TreeRow 0x3000 7 (Z.shiftl 0x3000 4 + 7) 0x53 "SS" :: tree d
  ∧ step_queue d' = step_queue d.
Proof.
  intros env d.
  apply (write_commits_when_room env d "SS" 0x3000 7 0x53 (0x3000, 0));
    vm_compute; reflexivity.
Defined.

(** X24. Step mode cannot get stuck: whatever the queued closures
    raise, the queue built by [prepare_allocation] is empty after
    exactly four clicks per planned pair, and not before. *)
Theorem step_mode_drains_in_four_clicks_per_pair
    (bytes_list : list Z) (tokens : list string) (d : MemoryDashboard) (n : nat) :
  let d0 := snd (prepare_allocation bytes_list tokens d) in
  let m := (length bytes_list `min` length tokens)%nat in
  length (step_queue (after_calls n next_step d0)) = (4 * m - n)%nat.
Proof.
  intros d0 m.
  assert (Hq : step_queue d0 = planned_steps 0 (zip bytes_list tokens))
    by (subst d0; by rewrite prepare_allocation_run).
  assert (Hlen : length (step_queue d0) = (4 * m)%nat)
    by (rewrite Hq, planned_steps_length, length_zip_with; done).
  destruct (decide (n ≤ 4 * m)%nat) as [Hle|Hgt].
  - rewrite after_next_steps by lia.
    cbn [step_queue with_after_id with_step_queue].
    rewrite length_drop. lia.
  - replace n with (4 * m + (n - 4 * m))%nat by lia.
    assert (Hsplit : ∀ k j (d1 : MemoryDashboard),
              after_calls (k + j) next_step d1
              = after_calls j next_step (after_calls k next_step d1)).
    { induction k as [|k IH]; intros j d1; [done|].
      cbn [Nat.add]. by rewrite !after_calls_S, IH. }
    rewrite Hsplit.
    assert (Hempty : step_queue (after_calls (4 * m) next_step d0) = []).
    { rewrite after_next_steps by lia.
      cbn [step_queue with_after_id with_step_queue].
      apply nil_length_inv. rewrite length_drop. lia. }
    destruct (after_next_steps_empty (n - 4 * m)
                (after_calls (4 * m) next_step d0) Hempty)
      as (_ & _ & _ & _ & -> & _).
    cbn. lia.
Qed.
